(** * ServiceDispatcher (libs/vr/libpdx_uds/service_dispatcher.cpp)

    A shallow embedding of the UDS service dispatcher: the object's fields,
    the two kernel objects it owns (an eventfd and an epoll instance), its
    member functions as state-passing functions, and an interleaving model of
    the threads that call them. *)

From Stdlib Require Import ZArith Bool List Lia.
From stdpp Require Import base option list gmap.
Import ListNotations.
Local Open Scope Z_scope.

(** ** Constants *)

(** errno values of <errno.h> (Linux / bionic numbering). *)
Definition ENOENT : positive := 2%positive.
Definition EINTR : positive := 4%positive.
Definition EBUSY : positive := 16%positive.
Definition EEXIST : positive := 17%positive.
Definition EINVAL : positive := 22%positive.
Definition ETIMEDOUT : positive := 110%positive.

(** [static const int kMaxEventsPerLoop = 128;] *)
Definition kMaxEventsPerLoop : Z := 128.

(** The value [-errno] that the member functions return. *)
Definition neg_errno (e : positive) : Z := - Z.pos e.

(** ** Kernel objects *)

(** The counter of an eventfd created with [EFD_NONBLOCK] and without
    [EFD_SEMAPHORE]: a write adds to it and fails with EAGAIN when the sum
    would pass 2^64 - 2, a read returns the counter and resets it to zero
    (and fails with EAGAIN, leaving zero, when it is zero already).  The
    descriptor is readable, so epoll reports EPOLLIN, while the counter is
    not zero. *)
Definition eventfd_max : Z := 2 ^ 64 - 2.

Definition eventfd_write_counter (value counter : Z) : Z :=
  if counter + value <=? eventfd_max then counter + value else counter.

Definition eventfd_read_counter (counter : Z) : Z := 0.

(** The interest list of an epoll instance: registered descriptor to the
    [data.ptr] of its [epoll_event]. *)
Inductive epoll_op := EPOLL_CTL_ADD | EPOLL_CTL_DEL.

(** [epoll_ctl]: [None] is success (return value 0), [Some e] is failure
    (return value -1 with [errno = e]).  [fault] is a failure the kernel
    raises for a reason outside this model (ENOMEM, ENOSPC, EBADF, EPERM);
    without one, ADD fails with EEXIST on a registered descriptor and DEL
    fails with ENOENT on one that is not registered. *)
Definition epoll_ctl (fault : option positive) (op : epoll_op) (fd data : Z)
    (m : gmap Z Z) : option positive * gmap Z Z :=
  match fault with
  | Some e => (Some e, m)
  | None =>
      match op, m !! fd with
      | EPOLL_CTL_ADD, Some _ => (Some EEXIST, m)
      | EPOLL_CTL_ADD, None => (None, <[fd := data]> m)
      | EPOLL_CTL_DEL, Some _ => (None, delete fd m)
      | EPOLL_CTL_DEL, None => (Some ENOENT, m)
      end
  end.

(** What one [epoll_wait] call gives back: failure with an errno
    (count = -1), or the [data.ptr] of the ready events in array order
    (count = length; the empty list is count = 0, the timeout expired). *)
Inductive wait_result :=
| WaitFail (e : positive)
| WaitReady (evs : list Z).

Definition wait_count (w : wait_result) : Z :=
  match w with
  | WaitFail _ => -1
  | WaitReady evs => Z.of_nat (length evs)
  end.

Definition wait_events (w : wait_result) : list Z :=
  match w with
  | WaitFail _ => []
  | WaitReady evs => evs
  end.

(** [errno] after the call; only read by the code when the count is negative. *)
Definition wait_errno (w : wait_result) : positive :=
  match w with
  | WaitFail e => e
  | WaitReady _ => 1%positive
  end.

(** ** The dispatcher object *)

(** Observable actions, kept as a ghost history (oldest first). *)
Inductive event :=
| EvEnter                  (* thread_count_++ in ThreadEnter *)
| EvExit                   (* thread_count_-- in ThreadExit *)
| EvWait (timeout : Z)     (* epoll_wait called with this timeout *)
| EvDispatch (svc : Z).    (* service->ReceiveAndDispatch() called *)

#[global] Instance event_eq_dec : EqDecision event.
Proof. solve_decision. Defined.

(** How often an event occurs in a history. *)
Definition occurrences (e : event) (h : list event) : nat :=
  length (filter (fun x => x = e) h).

(** Modelled from the spec: the class declaration (uds/service_dispatcher.h)
    and LocalHandle (pdx/file_handle.h) are not part of the sources.  The
    fields are the ones the member functions use; a handle is the descriptor
    number, valid when it is not negative and -1 when empty or closed; the
    count is the spec's integer and starts at 0, the flag starts cleared.
    [event_counter] and [interest] are the kernel objects behind the two
    handles, [history] is ghost. *)
Record ServiceDispatcher := mkDispatcher {
  event_fd_ : Z;
  epoll_fd_ : Z;
  services_ : list Z;
  thread_count_ : Z;
  canceled_ : bool;
  event_counter : Z;
  interest : gmap Z Z;
  history : list event
}.

Definition handle_valid (fd : Z) : bool := 0 <=? fd.
Definition kEmptyFileHandle : Z := -1.

Definition set_thread_count (n : Z) (s : ServiceDispatcher) : ServiceDispatcher :=
  mkDispatcher (event_fd_ s) (epoll_fd_ s) (services_ s) n (canceled_ s)
               (event_counter s) (interest s) (history s).

Definition set_canceled (b : bool) (s : ServiceDispatcher) : ServiceDispatcher :=
  mkDispatcher (event_fd_ s) (epoll_fd_ s) (services_ s) (thread_count_ s) b
               (event_counter s) (interest s) (history s).

Definition set_event_counter (c : Z) (s : ServiceDispatcher) : ServiceDispatcher :=
  mkDispatcher (event_fd_ s) (epoll_fd_ s) (services_ s) (thread_count_ s)
               (canceled_ s) c (interest s) (history s).

Definition set_registry (l : list Z) (m : gmap Z Z) (s : ServiceDispatcher)
    : ServiceDispatcher :=
  mkDispatcher (event_fd_ s) (epoll_fd_ s) l (thread_count_ s) (canceled_ s)
               (event_counter s) m (history s).

Definition record (e : event) (s : ServiceDispatcher) : ServiceDispatcher :=
  mkDispatcher (event_fd_ s) (epoll_fd_ s) (services_ s) (thread_count_ s)
               (canceled_ s) (event_counter s) (interest s) (history s ++ [e]).

(** [ThreadEnter]: under the mutex. *)
Definition ThreadEnter (s : ServiceDispatcher) : Z * ServiceDispatcher :=
  if canceled_ s then (neg_errno EBUSY, s)
  else (0, record EvEnter (set_thread_count (thread_count_ s + 1) s)).

(** [ThreadExit]: under the mutex.  Which sleeper [notify_one] wakes is
    part of the thread model below. *)
Definition ThreadExit (s : ServiceDispatcher) : ServiceDispatcher :=
  record EvExit (set_thread_count (thread_count_ s - 1) s).

Definition IsCanceled (s : ServiceDispatcher) : bool := canceled_ s.

(** [std::list::remove]: drops every element equal to the value. *)
Definition list_remove (x : Z) (l : list Z) : list Z :=
  filter (fun y => y ≠ x) l.

(** ** Threads

    The program points at which a thread can be observed by the others:
    everything between two of them runs under [mutex_] or touches only the
    thread's own locals. *)
Inductive fn :=
| FAddService
| FRemoveService
| FReceiveAndDispatch
| FEnterDispatchLoop
| FSetCanceled (cancel : bool).

(** The two functions that run between ThreadEnter and ThreadExit. *)
Inductive dispatch_fn := ViaReceiveAndDispatch | ViaEnterDispatchLoop.

Definition fn_of (f : dispatch_fn) : fn :=
  match f with
  | ViaReceiveAndDispatch => FReceiveAndDispatch
  | ViaEnterDispatchLoop => FEnterDispatchLoop
  end.

Inductive pc :=
| Idle                          (* outside the dispatcher *)
| RD_wait (timeout : Z)         (* ReceiveAndDispatch, line 129: in epoll_wait *)
| RD_events (evs : list Z)      (* ReceiveAndDispatch, line 137: events left *)
| Loop_test                     (* EnterDispatchLoop, line 161 *)
| Loop_wait                     (* EnterDispatchLoop, line 162: in epoll_wait *)
| Loop_events (evs : list Z)    (* EnterDispatchLoop, line 169: events left *)
| Exiting (f : dispatch_fn) (ret : Z)  (* about to run ThreadExit() and return ret *)
| SC_blocked                    (* SetCanceled, line 194: asleep on condition_ *)
| SC_woken                      (* SetCanceled, line 194: woken, mutex not yet re-acquired *)
| Returned (f : fn) (ret : Z).  (* the call has returned (0 for void) *)

(** A call of a member function with its arguments (and, for the registry
    functions, the fault of their [epoll_ctl] call). *)
Inductive call :=
| CAddService (service : Z) (fault : option positive)
| CRemoveService (service : Z) (fault : option positive)
| CReceiveAndDispatch0
| CReceiveAndDispatch (timeout : Z)
| CEnterDispatchLoop
| CSetCanceled (cancel : bool).

(** What the kernel reports from one [epoll_wait]: a failure, or the ready
    descriptors in the order it fills the array. *)
Inductive wait_report :=
| KFail (e : positive)
| KReady (fds : list Z).

(** What makes a thread move. *)
Inductive label :=
| LCall (c : call)             (* the thread calls a member function *)
| LWait (r : wait_report)      (* its epoll_wait returns *)
| LStep                        (* it runs to its next program point *)
| LExit (notify : option nat)  (* it runs ThreadExit(); notify_one wakes this sleeper *)
| LSpurious.                   (* its condition_.wait wakes without a notify *)

Record system := mkSystem {
  obj : ServiceDispatcher;
  threads : list pc
}.

(** A thread between a successful ThreadEnter and its ThreadExit. *)
Definition inside (p : pc) : bool :=
  match p with
  | RD_wait _ | RD_events _ | Loop_test | Loop_wait | Loop_events _
  | Exiting _ _ => true
  | Idle | SC_blocked | SC_woken | Returned _ _ => false
  end.

Fixpoint count_inside (l : list pc) : Z :=
  match l with
  | [] => 0
  | p :: l' => Z.b2z (inside p) + count_inside l'
  end.

Definition is_blocked (p : pc) : bool :=
  match p with SC_blocked => true | _ => false end.

(** One registry operation of a single-threaded client. *)
Inductive registry_op :=
| OpAdd (service : Z) (fault : option positive)
| OpRemove (service : Z) (fault : option positive).

(** * [NativeBufferProducer] (libbufferhub, native_buffer.h)

    The buffer, the display and the EGL images are kept as the addresses
    and handles the code passes around; a slice is kept as the buffer index
    it was made for.  What EGL does is outside the program: the image
    [eglCreateImageKHR] returns for a slice is given by a function, and the
    calls made to EGL are recorded, oldest first.  The release fence is
    left out. *)
Module NativeBuffer.

Definition nullptr : Z := 0.

Inductive egl_call :=
| EglCreateImage (display slice : Z)
| EglDestroyImage (display image : Z).

Record NativeBufferProducer := mkProducer {
  buffer_ : Z;
  slices_ : list Z;
  egl_images_ : list Z;
  surface_buffer_index_ : Z;
  display_ : Z;
  egl_calls : list egl_call
}.

(** The values [i] takes in [n] rounds of a loop that starts at [i] and
    adds one each round. *)
Fixpoint indexes (n : nat) (i : Z) : list Z :=
  match n with
  | O => []
  | S n' => i :: indexes n' (i + 1)
  end.

Section Producer.

Variable EGL_NO_IMAGE_KHR : Z.
Variable slice_count : Z -> Z.
Variable eglCreateImageKHR : Z -> Z -> Z.

(** Line 109. *)
Definition push_slice (i : Z) (p : NativeBufferProducer) : NativeBufferProducer :=
  mkProducer (buffer_ p) (slices_ p ++ [i]) (egl_images_ p)
    (surface_buffer_index_ p) (display_ p) (egl_calls p).

(** Lines 111-113: the image of the slice pushed last. *)
Definition push_image (i : Z) (p : NativeBufferProducer) : NativeBufferProducer :=
  mkProducer (buffer_ p) (slices_ p)
    (egl_images_ p ++ [eglCreateImageKHR (display_ p) i])
    (surface_buffer_index_ p) (display_ p)
    (egl_calls p ++ [EglCreateImage (display_ p) i]).

(** One round of the loop of the constructor; a failed
    [eglCreateImageKHR] is logged and its result kept. *)
Definition loop_body (i : Z) (p : NativeBufferProducer) : NativeBufferProducer :=
  let p1 := push_slice i p in
  if display_ p1 =? nullptr then p1 else push_image i p1.

(** [n] rounds are left, the next one with index [i]. *)
Fixpoint ctor_loop (n : nat) (i : Z) (p : NativeBufferProducer)
    : NativeBufferProducer :=
  match n with
  | O => p
  | S n' => ctor_loop n' (i + 1) (loop_body i p)
  end.

(** [NativeBufferProducer(buffer, display, surface_buffer_index)]:
    [for (int i = 0; i < buffer->slice_count(); ++i)] runs
    [slice_count] rounds, none when it is not positive. *)
Definition ctor (buffer display surface_buffer_index : Z) : NativeBufferProducer :=
  ctor_loop (Z.to_nat (slice_count buffer)) 0
    (mkProducer buffer [] [] surface_buffer_index display []).

(** [NativeBufferProducer(buffer)]. *)
Definition ctor1 (buffer : Z) : NativeBufferProducer := ctor buffer nullptr 0.

Fixpoint destroy_images (display : Z) (images : list Z) : list egl_call :=
  match images with
  | [] => []
  | egl_image :: rest =>
      (if egl_image =? EGL_NO_IMAGE_KHR then []
       else [EglDestroyImage display egl_image])
      ++ destroy_images display rest
  end.

(** [~NativeBufferProducer()]. *)
Definition dtor (p : NativeBufferProducer) : NativeBufferProducer :=
  mkProducer (buffer_ p) (slices_ p) (egl_images_ p)
    (surface_buffer_index_ p) (display_ p)
    (egl_calls p ++ destroy_images (display_ p) (egl_images_ p)).

(** [image_khr(index)]: [egl_images_[index]]; [None] stands for an index
    outside the vector, where the behaviour is undefined. *)
Definition image_khr (index : Z) (p : NativeBufferProducer) : option Z :=
  if index <? 0 then None else egl_images_ p !! Z.to_nat index.

End Producer.

End NativeBuffer.

(** ** Sample data

    A dispatcher at address 1000 whose event fd is descriptor 3 and whose
    epoll instance is descriptor 4; services 11 and 12 are of the expected
    kind (tag 7), service 13 is not; a service at address [a] has the
    endpoint descriptor [a + 100]. *)
Definition sample_this : Z := 1000.
Definition sample_kIpcTag : Z := 7.
Definition sample_ipc_tag (service : Z) : Z := if service =? 13 then 8 else 7.
Definition sample_epoll_fd (service : Z) : Z := service + 100.

Definition sample_idle : ServiceDispatcher :=
  mkDispatcher 3 4 [11; 12] 0 false 0 {[3 := 1000; 111 := 11; 112 := 12]} [].

Definition sample_busy : ServiceDispatcher :=
  mkDispatcher 3 4 [11; 12] 2 false 0 {[3 := 1000; 111 := 11; 112 := 12]}
               [EvEnter; EvEnter].

(** One thread blocked in the [epoll_wait] of [EnterDispatchLoop], one
    thread outside. *)
Definition sample_waiting : system :=
  mkSystem (mkDispatcher 3 4 [] 1 false 0 {[3 := 1000]} [EvEnter])
           [Loop_wait; Idle].

Definition to_sample_waiting : list (nat * label) :=
  [(0%nat, LCall CEnterDispatchLoop); (0%nat, LStep)].

(** Thread 0 leaves through the control signal and wakes thread 1, which
    finishes its [SetCanceled(true)]. *)
Definition cancel_completes : list (nat * label) :=
  [(0%nat, LWait (KReady [3])); (0%nat, LStep); (0%nat, LExit (Some 1%nat));
   (1%nat, LStep)].

Definition sample_canceled : system :=
  mkSystem (mkDispatcher 3 4 [] 0 true 0 {[3 := 1000]}
              [EvEnter; EvWait (-1); EvExit])
           [Returned FEnterDispatchLoop (-16); Returned (FSetCanceled true) 0].

(** Threads 0 and 1 enter the loop; thread 2 calls [SetCanceled(true)] and
    sleeps; thread 3 calls [SetCanceled(false)]; thread 0 sees the control
    signal, leaves and wakes thread 2. *)
Definition uncancel_race : list (nat * label) :=
  [(0%nat, LCall CEnterDispatchLoop); (1%nat, LCall CEnterDispatchLoop);
   (2%nat, LCall (CSetCanceled true)); (3%nat, LCall (CSetCanceled false));
   (0%nat, LStep); (0%nat, LWait (KReady [3])); (0%nat, LStep);
   (0%nat, LExit (Some 2%nat))].

Definition sample_uncanceled : system :=
  mkSystem (mkDispatcher 3 4 [] 1 false 1 {[3 := 1000]}
              [EvEnter; EvEnter; EvWait (-1); EvExit])
           [Returned FEnterDispatchLoop (-16); Loop_test; SC_woken;
            Returned (FSetCanceled false) 0].

(** Endpoint descriptors that can never be the event fd 3: a service at
    address [a] has the even descriptor [2 * a + 100]. *)
Definition sample_even_fd (service : Z) : Z := 2 * service + 100.

(** A dispatcher fresh from [Create] with [n] threads outside it. *)
Definition sample_fresh (n : nat) : system :=
  mkSystem (mkDispatcher 3 4 [] 0 false 0 {[3 := 1000]} []) (replicate n Idle).

(** [sample_idle] with service 14 registered as well. *)
Definition sample_idle_14 : ServiceDispatcher :=
  mkDispatcher 3 4 [11; 12; 14] 0 false 0
               {[3 := 1000; 111 := 11; 112 := 12; 114 := 14]} [].

(** [sample_idle] without service 11. *)
Definition sample_idle_no_11 : ServiceDispatcher :=
  mkDispatcher 3 4 [12] 0 false 0 {[3 := 1000; 112 := 12]} [].

(** Thread 0 registers service 11 (descriptor 122); thread 1 calls
    [ReceiveAndDispatch(5)] and its wait reports the service. *)
Definition to_sample_serving : list (nat * label) :=
  [(0%nat, LCall (CAddService 11 None)); (1%nat, LCall (CReceiveAndDispatch 5));
   (1%nat, LWait (KReady [122]))].

Definition sample_serving : system :=
  mkSystem (mkDispatcher 3 4 [11] 1 false 0 {[3 := 1000; 122 := 11]}
              [EvEnter; EvWait 5])
           [Returned FAddService 0; RD_events [11]].

(** Thread 1 has called service 11. *)
Definition sample_served : system :=
  mkSystem (mkDispatcher 3 4 [11] 1 false 0 {[3 := 1000; 122 := 11]}
              [EvEnter; EvWait 5; EvDispatch 11])
           [Returned FAddService 0; RD_events []].

(** [sample_waiting] after thread 1 called [SetCanceled(true)]: the event
    fd is signaled and thread 1 sleeps. *)
Definition to_sample_cancelling : list (nat * label) :=
  to_sample_waiting ++ [(1%nat, LCall (CSetCanceled true))].

Definition sample_cancelling : system :=
  mkSystem (mkDispatcher 3 4 [] 1 true 1 {[3 := 1000]} [EvEnter])
           [Loop_wait; SC_blocked].

(** [sample_cancelling] after the wait of thread 0 was interrupted. *)
Definition sample_interrupted : system :=
  mkSystem (mkDispatcher 3 4 [] 1 true 1 {[3 := 1000]} [EvEnter; EvWait (-1)])
           [Loop_events []; SC_blocked].

(** Thread 0 enters the loop; threads 1 and 2 call [SetCanceled(true)] and
    sleep; thread 0 sees the flag, leaves and wakes thread 1, which
    returns.  Thread 2 is left asleep. *)
Definition to_sample_stranded : list (nat * label) :=
  [(0%nat, LCall CEnterDispatchLoop); (1%nat, LCall (CSetCanceled true));
   (2%nat, LCall (CSetCanceled true)); (0%nat, LStep);
   (0%nat, LExit (Some 1%nat)); (1%nat, LStep)].

Definition sample_stranded : system :=
  mkSystem (mkDispatcher 3 4 [] 0 true 0 {[3 := 1000]} [EvEnter; EvExit])
           [Returned FEnterDispatchLoop 0; Returned (FSetCanceled true) 0;
            SC_blocked].

(** The other two threads try to get in again. *)
Definition stranded_calls : list (nat * label) :=
  [(0%nat, LCall (CReceiveAndDispatch 5)); (1%nat, LCall CEnterDispatchLoop)].

Definition sample_still_stranded : system :=
  mkSystem (mkDispatcher 3 4 [] 0 true 0 {[3 := 1000]} [EvEnter; EvExit])
           [Returned FReceiveAndDispatch (-16);
            Returned FEnterDispatchLoop (-16); SC_blocked].


(** A buffer at address 500 with three slices; an EGL for which 0 is
    [EGL_NO_IMAGE_KHR], that fails for slice 1 and gives slice [i] the
    image [70 + i] otherwise. *)
Definition sample_slice_count (buffer : Z) : Z :=
  if buffer =? 500 then 3 else 0.

Definition sample_eglCreateImageKHR (display slice : Z) : Z :=
  if slice =? 1 then 0 else 70 + slice.




(** Thread 0 enters the loop; thread 1 calls [SetCanceled(true)] and
    sleeps; thread 0 sees the flag, leaves and notifies thread 1, which has
    not yet run again: the event fd is still signaled. *)
Definition to_sample_notified : list (nat * label) :=
  [(0%nat, LCall CEnterDispatchLoop); (1%nat, LCall (CSetCanceled true));
   (0%nat, LStep); (0%nat, LExit (Some 1%nat))].

Definition sample_notified : system :=
  mkSystem (mkDispatcher 3 4 [] 0 true 1 {[3 := 1000]} [EvEnter; EvExit])
           [Returned FEnterDispatchLoop 0; SC_woken; Idle].

(** Thread 2 is back from a [SetCanceled(true)]. *)
Definition sample_notified_canceled : system :=
  mkSystem (mkDispatcher 3 4 [] 0 true 1 {[3 := 1000]} [EvEnter; EvExit])
           [Returned FEnterDispatchLoop 0; SC_woken;
            Returned (FSetCanceled true) 0].

(** [sample_busy] after another thread has called [SetCanceled(true)]. *)
Definition sample_flagged : ServiceDispatcher :=
  mkDispatcher 3 4 [11; 12] 2 true 1 {[3 := 1000; 111 := 11; 112 := 12]}
               [EvEnter; EvEnter].

(** The steps of a thread after its call of [EnterDispatchLoop], each
    with the object as the thread finds it: the loop test, a wait that
    reports service 11, its dispatch, the end of the batch, the loop test
    that sees the flag, [ThreadExit]. *)
Definition sample_loop_steps : list (label * ServiceDispatcher) :=
  [(LStep, sample_busy); (LWait (KReady [111]), sample_busy);
   (LStep, sample_busy); (LStep, sample_busy); (LStep, sample_flagged);
   (LExit None, sample_flagged)].

(** [sample_waiting] after thread 1 called [SetCanceled(true)] and thread
    0 left through the control signal and notified it: thread 1 is about
    to re-acquire the mutex. *)
Definition to_sample_woken : list (nat * label) :=
  to_sample_waiting
  ++ [(1%nat, LCall (CSetCanceled true)); (0%nat, LWait (KReady [3]));
      (0%nat, LStep); (0%nat, LExit (Some 1%nat))].

Definition sample_woken : system :=
  mkSystem (mkDispatcher 3 4 [] 0 true 1 {[3 := 1000]}
              [EvEnter; EvWait (-1); EvExit])
           [Returned FEnterDispatchLoop (-16); SC_woken].

Section Dispatcher.

#[local] Set Default Proof Using "Type".

(** Address of the dispatcher object, used as the [data.ptr] of the event
    fd's registration. *)
Variable this : Z.

(** A service is the address held by the [shared_ptr]; these read the
    object it points to.  [Endpoint::kIpcTag] is declared in
    uds/service_endpoint.h, which is not part of the sources. *)
Variable kIpcTag : Z.
Variable ipc_tag : Z -> Z.             (* service->endpoint()->GetIpcTag() *)
Variable endpoint_epoll_fd : Z -> Z.   (* endpoint->epoll_fd() *)

(** The constructor; the arguments are what [eventfd] and [epoll_create]
    return and the fault of the [epoll_ctl] call. *)
Definition ctor (r_eventfd r_epoll_create : Z) (ctl_fault : option positive)
    : ServiceDispatcher :=
  let d0 := mkDispatcher kEmptyFileHandle kEmptyFileHandle [] 0 false 0 ∅ [] in
  (* event_fd_.Reset(eventfd(0, EFD_CLOEXEC | EFD_NONBLOCK)); *)
  let d1 := mkDispatcher r_eventfd (epoll_fd_ d0) [] 0 false 0 ∅ [] in
  if negb (handle_valid (event_fd_ d1)) then d1 else
  (* epoll_fd_.Reset(epoll_create(1)); *)
  let d2 := mkDispatcher (event_fd_ d1) r_epoll_create [] 0 false 0 ∅ [] in
  if negb (handle_valid (epoll_fd_ d2)) then d2 else
  match epoll_ctl ctl_fault EPOLL_CTL_ADD (event_fd_ d2) this (interest d2) with
  | (Some _, _) =>
      (* event_fd_.Close(); epoll_fd_.Close(); *)
      mkDispatcher kEmptyFileHandle kEmptyFileHandle [] 0 false 0 ∅ []
  | (None, m) => set_registry [] m d2
  end.

(** [Create]: [None] is the null pointer. *)
Definition Create (r_eventfd r_epoll_create : Z) (ctl_fault : option positive)
    : option ServiceDispatcher :=
  let dispatcher := ctor r_eventfd r_epoll_create ctl_fault in
  if negb (handle_valid (epoll_fd_ dispatcher))
     || negb (handle_valid (event_fd_ dispatcher))
  then None else Some dispatcher.

(** [AddService]; [fault] is the fault of its [epoll_ctl] call. *)
Definition AddService (fault : option positive) (service : Z)
    (s : ServiceDispatcher) : Z * ServiceDispatcher :=
  if negb (ipc_tag service =? kIpcTag) then (neg_errno EINVAL, s) else
  match epoll_ctl fault EPOLL_CTL_ADD (endpoint_epoll_fd service) service
                  (interest s) with
  | (Some e, _) => (neg_errno e, s)
  | (None, m) => (0, set_registry (services_ s ++ [service]) m s)
  end.

(** [RemoveService]. *)
Definition RemoveService (fault : option positive) (service : Z)
    (s : ServiceDispatcher) : Z * ServiceDispatcher :=
  if negb (ipc_tag service =? kIpcTag) then (neg_errno EINVAL, s) else
  if thread_count_ s >? 0 then (neg_errno EBUSY, s) else
  match epoll_ctl fault EPOLL_CTL_DEL (endpoint_epoll_fd service) 0
                  (interest s) with
  | (Some e, _) => (neg_errno e, s)
  | (None, m) => (0, set_registry (list_remove service (services_ s)) m s)
  end.

(** [service->ReceiveAndDispatch()]: the service's own work is outside the
    dispatcher; the call is recorded and its status is ignored. *)
Definition Service_ReceiveAndDispatch (service : Z) (s : ServiceDispatcher)
    : ServiceDispatcher :=
  record (EvDispatch service) s.

(** The [for] loop over the ready events (lines 137-148 and 169-180):
    [Some r] when the loop body returned [r], [None] when the loop ran to
    its end. *)
Fixpoint dispatch_events (evs : list Z) (s : ServiceDispatcher)
    : option Z * ServiceDispatcher :=
  match evs with
  | [] => (None, s)
  | p :: rest =>
      if p =? this then (Some (neg_errno EBUSY), ThreadExit s)
      else dispatch_events rest (Service_ReceiveAndDispatch p s)
  end.

(** [ReceiveAndDispatch(int timeout)]; [w] is what its [epoll_wait] gives. *)
Definition ReceiveAndDispatch (timeout : Z) (w : wait_result)
    (s : ServiceDispatcher) : Z * ServiceDispatcher :=
  let '(ret, s1) := ThreadEnter s in
  if ret <? 0 then (ret, s1) else
  let s2 := record (EvWait timeout) s1 in
  let count := wait_count w in
  if count <=? 0 then
    (if count <? 0 then neg_errno (wait_errno w) else neg_errno ETIMEDOUT,
     ThreadExit s2)
  else
    match dispatch_events (wait_events w) s2 with
    | (Some r, s3) => (r, s3)
    | (None, s3) => (0, ThreadExit s3)
    end.

(** [ReceiveAndDispatch()]. *)
Definition ReceiveAndDispatch0 (w : wait_result) (s : ServiceDispatcher)
    : Z * ServiceDispatcher :=
  ReceiveAndDispatch (-1) w s.

(** The [while (!IsCanceled())] loop of [EnterDispatchLoop] run by one
    thread on its own; [ws] is what its successive [epoll_wait] calls give.
    [None]: the thread is still blocked in an [epoll_wait] for which [ws]
    has no result. *)
Fixpoint dispatch_loop (ws : list wait_result) (s : ServiceDispatcher)
    : option (Z * ServiceDispatcher) :=
  if IsCanceled s then Some (0, ThreadExit s) else
  match ws with
  | [] => None
  | w :: ws' =>
      let s1 := record (EvWait (-1)) s in
      let count := wait_count w in
      if (count <? 0) && negb (Pos.eqb (wait_errno w) EINTR) then
        Some (neg_errno (wait_errno w), ThreadExit s1)
      else
        match dispatch_events (wait_events w) s1 with
        | (Some r, s2) => Some (r, s2)
        | (None, s2) => dispatch_loop ws' s2
        end
  end.

Definition EnterDispatchLoop (ws : list wait_result) (s : ServiceDispatcher)
    : option (Z * ServiceDispatcher) :=
  let '(ret, s1) := ThreadEnter s in
  if ret <? 0 then Some (ret, s1) else dispatch_loop ws s1.

(** [SetCanceled] up to its [condition_.wait]: sets the flag and, when
    threads are active, writes the event fd.  The boolean says whether the
    caller now sleeps on [condition_] (the wait predicate is the negation of
    the test just passed, so it is false at that point). *)
Definition SetCanceled_begin (cancel : bool) (s : ServiceDispatcher)
    : bool * ServiceDispatcher :=
  let s1 := set_canceled cancel s in
  if canceled_ s1 && (thread_count_ s1 >? 0) then
    (true, set_event_counter (eventfd_write_counter 1 (event_counter s1)) s1)
  else (false, s1).

(** The predicate of [condition_.wait]. *)
Definition wait_pred (s : ServiceDispatcher) : bool :=
  negb (canceled_ s && (thread_count_ s >? 0)).

(** A woken [SetCanceled] re-acquires the mutex and tests the predicate:
    [Some] when it holds (the event fd is read and the call returns),
    [None] when the caller goes back to sleep. *)
Definition SetCanceled_resume (s : ServiceDispatcher) : option ServiceDispatcher :=
  if wait_pred s
  then Some (set_event_counter (eventfd_read_counter (event_counter s)) s)
  else None.

(** [epoll_wait] on the dispatcher's epoll instance.  A report is possible
    when it names at most [kMaxEventsPerLoop] distinct registered
    descriptors, names the event fd only while its counter is not zero, and
    is empty only for a timeout that can expire. *)
Definition fd_ready (s : ServiceDispatcher) (fd : Z) : bool :=
  if fd =? event_fd_ s then 0 <? event_counter s else true.

Definition epoll_wait (timeout : Z) (r : wait_report) (s : ServiceDispatcher)
    : option wait_result :=
  match r with
  | KFail e => Some (WaitFail e)
  | KReady [] => if 0 <=? timeout then Some (WaitReady []) else None
  | KReady fds =>
      if (Z.of_nat (length fds) <=? kMaxEventsPerLoop)
         && bool_decide (NoDup fds) && forallb (fd_ready s) fds
      then WaitReady <$> mapM (fun fd => interest s !! fd) fds
      else None
  end.

(** A call starts: the part of the function up to its first program point. *)
Definition enter (f : dispatch_fn) (next : pc) (s : ServiceDispatcher)
    : pc * ServiceDispatcher :=
  let '(ret, s1) := ThreadEnter s in
  if ret <? 0 then (Returned (fn_of f) ret, s1) else (next, s1).

Definition start_call (c : call) (s : ServiceDispatcher)
    : pc * ServiceDispatcher :=
  match c with
  | CAddService service fault =>
      let '(r, s') := AddService fault service s in (Returned FAddService r, s')
  | CRemoveService service fault =>
      let '(r, s') := RemoveService fault service s in
      (Returned FRemoveService r, s')
  | CReceiveAndDispatch0 => enter ViaReceiveAndDispatch (RD_wait (-1)) s
  | CReceiveAndDispatch timeout =>
      enter ViaReceiveAndDispatch (RD_wait timeout) s
  | CEnterDispatchLoop => enter ViaEnterDispatchLoop Loop_test s
  | CSetCanceled cancel =>
      let '(blocked, s') := SetCanceled_begin cancel s in
      (if blocked then SC_blocked else Returned (FSetCanceled cancel) 0, s')
  end.

(** One iteration of the [for] loop; [after] is where the thread goes when
    no event is left. *)
Definition event_step (f : dispatch_fn) (again : list Z -> pc) (after : pc)
    (evs : list Z) (s : ServiceDispatcher) : pc * ServiceDispatcher :=
  match evs with
  | [] => (after, s)
  | p :: rest =>
      if p =? this then (Exiting f (neg_errno EBUSY), s)
      else (again rest, Service_ReceiveAndDispatch p s)
  end.

(** One step of one thread on the shared object. *)
Definition thread_step (l : label) (p : pc) (s : ServiceDispatcher)
    : option (pc * ServiceDispatcher) :=
  match p, l with
  | Idle, LCall c | Returned _ _, LCall c => Some (start_call c s)
  | RD_wait timeout, LWait r =>
      w ← epoll_wait timeout r s;
      let s2 := record (EvWait timeout) s in
      let count := wait_count w in
      Some (if count <=? 0
            then Exiting ViaReceiveAndDispatch
                   (if count <? 0 then neg_errno (wait_errno w)
                    else neg_errno ETIMEDOUT)
            else RD_events (wait_events w), s2)
  | RD_events evs, LStep =>
      Some (event_step ViaReceiveAndDispatch RD_events
              (Exiting ViaReceiveAndDispatch 0) evs s)
  | Loop_test, LStep =>
      Some (if IsCanceled s then Exiting ViaEnterDispatchLoop 0 else Loop_wait, s)
  | Loop_wait, LWait r =>
      w ← epoll_wait (-1) r s;
      let s1 := record (EvWait (-1)) s in
      let count := wait_count w in
      Some (if (count <? 0) && negb (Pos.eqb (wait_errno w) EINTR)
            then Exiting ViaEnterDispatchLoop (neg_errno (wait_errno w))
            else Loop_events (wait_events w), s1)
  | Loop_events evs, LStep =>
      Some (event_step ViaEnterDispatchLoop Loop_events Loop_test evs s)
  | Exiting f ret, LExit _ => Some (Returned (fn_of f) ret, ThreadExit s)
  | SC_blocked, LSpurious => Some (SC_woken, s)
  | SC_woken, LStep =>
      Some (match SetCanceled_resume s with
            | Some s' => (Returned (FSetCanceled true) 0, s')
            | None => (SC_blocked, s)
            end)
  | _, _ => None
  end.

(** One thread running on its own. *)
Fixpoint run_thread (ls : list label) (p : pc) (s : ServiceDispatcher)
    : option (pc * ServiceDispatcher) :=
  match ls with
  | [] => Some (p, s)
  | l :: ls' => '(p', s') ← thread_step l p s; run_thread ls' p' s'
  end.

Definition is_call (l : label) : bool :=
  match l with LCall _ => true | _ => false end.

(** The steps hold no call: the thread stays in the call it is in. *)
Definition calls_nothing (steps : list (label * ServiceDispatcher)) : bool :=
  forallb (fun x => negb (is_call x.1)) steps.

(** One thread running among others: before each of its steps the object
    is whatever the other threads have made of it.  The result is the
    program point the thread reaches, what its own steps have added to
    [thread_count_], and the events its own steps have recorded. *)
Fixpoint run_among (steps : list (label * ServiceDispatcher)) (p : pc)
    : option (pc * Z * list event) :=
  match steps with
  | [] => Some (p, 0, [])
  | (l, s) :: rest =>
      '(p1, s1) ← thread_step l p s;
      '(p2, d, h) ← run_among rest p1;
      Some (p2, thread_count_ s1 - thread_count_ s + d,
            drop (length (history s)) (history s1) ++ h)
  end.

(** Two states with the same kernel objects behind the same handles. *)
Definition same_kernel (s0 s : ServiceDispatcher) : Prop :=
  event_fd_ s = event_fd_ s0 ∧ event_counter s = event_counter s0
  ∧ interest s = interest s0.

(** The same steps as a relation, one rule per transition. *)
Inductive thread_steps : label → pc → ServiceDispatcher → pc → ServiceDispatcher → Prop :=
| TS_call_idle c s :
    thread_steps (LCall c) Idle s (start_call c s).1 (start_call c s).2
| TS_call_again f ret c s :
    thread_steps (LCall c) (Returned f ret) s (start_call c s).1 (start_call c s).2
| TS_rd_wait timeout r w s :
    epoll_wait timeout r s = Some w →
    thread_steps (LWait r) (RD_wait timeout) s
      (if wait_count w <=? 0
       then Exiting ViaReceiveAndDispatch
              (if wait_count w <? 0 then neg_errno (wait_errno w)
               else neg_errno ETIMEDOUT)
       else RD_events (wait_events w))
      (record (EvWait timeout) s)
| TS_rd_event evs s :
    thread_steps LStep (RD_events evs) s
      (event_step ViaReceiveAndDispatch RD_events
         (Exiting ViaReceiveAndDispatch 0) evs s).1
      (event_step ViaReceiveAndDispatch RD_events
         (Exiting ViaReceiveAndDispatch 0) evs s).2
| TS_loop_test s :
    thread_steps LStep Loop_test s
      (if IsCanceled s then Exiting ViaEnterDispatchLoop 0 else Loop_wait) s
| TS_loop_wait r w s :
    epoll_wait (-1) r s = Some w →
    thread_steps (LWait r) Loop_wait s
      (if (wait_count w <? 0) && negb (Pos.eqb (wait_errno w) EINTR)
       then Exiting ViaEnterDispatchLoop (neg_errno (wait_errno w))
       else Loop_events (wait_events w))
      (record (EvWait (-1)) s)
| TS_loop_event evs s :
    thread_steps LStep (Loop_events evs) s
      (event_step ViaEnterDispatchLoop Loop_events Loop_test evs s).1
      (event_step ViaEnterDispatchLoop Loop_events Loop_test evs s).2
| TS_exit f ret target s :
    thread_steps (LExit target) (Exiting f ret) s
      (Returned (fn_of f) ret) (ThreadExit s)
| TS_spurious s :
    thread_steps LSpurious SC_blocked s SC_woken s
| TS_resume s s' :
    SetCanceled_resume s = Some s' →
    thread_steps LStep SC_woken s (Returned (FSetCanceled true) 0) s'
| TS_sleep s :
    SetCanceled_resume s = None →
    thread_steps LStep SC_woken s SC_blocked s.

(** [condition_.notify_one()]: wakes one sleeper when there is one. *)
Definition notify_one (target : option nat) (ths : list pc) : option (list pc) :=
  match target with
  | Some u =>
      match ths !! u with
      | Some SC_blocked => Some (<[u := SC_woken]> ths)
      | _ => None
      end
  | None => if existsb is_blocked ths then None else Some ths
  end.

(** One step of thread [t] in the system. *)
Definition step (t : nat) (l : label) (σ : system) : option system :=
  p ← threads σ !! t;
  '(p', s') ← thread_step l p (obj σ);
  let ths := <[t := p']> (threads σ) in
  match l with
  | LExit target => mkSystem s' <$> notify_one target ths
  | _ => Some (mkSystem s' ths)
  end.

Fixpoint run (tr : list (nat * label)) (σ : system) : option system :=
  match tr with
  | [] => Some σ
  | (t, l) :: tr' => σ' ← step t l σ; run tr' σ'
  end.

(** A dispatcher fresh from [Create] with [n] threads outside it. *)
Definition init (r_eventfd r_epoll_create : Z) (n : nat) : option system :=
  d ← Create r_eventfd r_epoll_create None;
  Some (mkSystem d (replicate n Idle)).

Definition reachable (σ : system) : Prop :=
  ∃ r_eventfd r_epoll_create n σ0 tr,
    init r_eventfd r_epoll_create n = Some σ0 ∧ run tr σ0 = Some σ.

(** Every event of a list handed to its service, none of them being the
    dispatcher's own. *)
Definition dispatch_all (evs : list Z) (s : ServiceDispatcher) : ServiceDispatcher :=
  fold_left (fun acc p => Service_ReceiveAndDispatch p acc) evs s.

(** A single-threaded client running registry operations in order; the
    results are returned oldest first. *)
Definition apply_op (o : registry_op) (s : ServiceDispatcher)
    : Z * ServiceDispatcher :=
  match o with
  | OpAdd service fault => AddService fault service s
  | OpRemove service fault => RemoveService fault service s
  end.


(** A thread inside [SetCanceled], between its write of the event fd and
    its read. *)
Definition cancelling (p : pc) : bool :=
  match p with SC_blocked | SC_woken => true | _ => false end.

Fixpoint count_cancelling (l : list pc) : Z :=
  match l with
  | [] => 0
  | p :: l' => Z.b2z (cancelling p) + count_cancelling l'
  end.

(** The count is the number of threads between ThreadEnter and ThreadExit. *)
Definition count_ok (σ : system) : Prop :=
  thread_count_ (obj σ) = count_inside (threads σ).

(** The event fd is signaled only while some [SetCanceled] is under way. *)
Definition signal_ok (σ : system) : Prop :=
  (∀ u p, threads σ !! u = Some p → cancelling p = false) →
  event_counter (obj σ) = 0.

(** The claim that the count is 0 whenever a [SetCanceled(true)] returns,
    in any execution. *)
Definition quiescent_whenever_canceled_returns : Prop :=
  ∀ σ t l σ',
    reachable σ → step t l σ = Some σ' →
    threads σ' !! t = Some (Returned (FSetCanceled true) 0) →
    thread_count_ (obj σ') = 0.

(** No thread is inside [SetCanceled]. *)
Definition quiet (ths : list pc) : bool :=
  forallb (fun p => negb (cancelling p)) ths.

Definition is_SetCanceled_call (l : label) : bool :=
  match l with LCall (CSetCanceled _) => true | _ => false end.

(** No step of the trace is a call of [SetCanceled]. *)
Definition calls_no_SetCanceled (tr : list (nat * label)) : bool :=
  forallb (fun '(_, l) => negb (is_SetCanceled_call l)) tr.

Definition is_entry_call (l : label) : bool :=
  match l with
  | LCall CReceiveAndDispatch0 | LCall (CReceiveAndDispatch _)
  | LCall CEnterDispatchLoop => true
  | _ => false
  end.

(** No step of the trace is a call of a dispatch entry point. *)
Definition enters_nothing (tr : list (nat * label)) : bool :=
  forallb (fun '(_, l) => negb (is_entry_call l)) tr.

(** The claim that the event fd is unsignaled whenever the second of two
    [SetCanceled(true)] calls of a thread returns, with no call of
    [SetCanceled] and no call of a dispatch entry point between the two,
    in any execution. *)
Definition second_cancel_leaves_unsignaled : Prop :=
  ∀ σ0 t tr σ1 σ2,
    reachable σ0 →
    calls_no_SetCanceled tr = true →
    enters_nothing tr = true →
    run ((t, LCall (CSetCanceled true)) :: tr) σ0 = Some σ1 →
    threads σ1 !! t = Some (Returned (FSetCanceled true) 0) →
    step t (LCall (CSetCanceled true)) σ1 = Some σ2 →
    threads σ2 !! t = Some (Returned (FSetCanceled true) 0) →
    event_counter (obj σ2) = 0.

(** What [notify_one] can have done to the threads. *)
Definition woken (ths ths' : list pc) : Prop :=
  ths' = ths ∨ ∃ u, ths !! u = Some SC_blocked ∧ ths' = <[u := SC_woken]> ths.



(** What holds from the moment thread [t] has called [SetCanceled(true)]
    for as long as nobody calls [SetCanceled]: the flag stays set, and once
    [t] is out of the call nobody is inside. *)
Definition cancel_window (t : nat) (σ : system) : Prop :=
  count_ok σ
  ∧ canceled_ (obj σ) = true
  ∧ (∀ p, threads σ !! t = Some p → cancelling p = false →
       thread_count_ (obj σ) = 0).

(** Registry and epoll interest list in lockstep: every registry entry is
    registered under its endpoint's descriptor with itself as [data.ptr],
    and every registration other than the event fd's belongs to a registry
    entry. *)
Definition in_sync (s : ServiceDispatcher) : Prop :=
  (∀ p, p ∈ services_ s → interest s !! endpoint_epoll_fd p = Some p)
  ∧ (∀ fd p, interest s !! fd = Some p → fd ≠ event_fd_ s →
       p ∈ services_ s ∧ endpoint_epoll_fd p = fd).


(** What holds from the moment thread [t] has called [SetCanceled(true)]
    with no other [SetCanceled] under way, for as long as nobody calls
    [SetCanceled]: [t] is the only canceller and the event fd is signaled
    exactly while [t] is inside the call. *)
Definition cancel_signaled (t : nat) (σ : system) : Prop :=
  canceled_ (obj σ) = true
  ∧ (∀ u p, u ≠ t → threads σ !! u = Some p → cancelling p = false)
  ∧ (∀ p, threads σ !! t = Some p →
          event_counter (obj σ) = Z.b2z (cancelling p)).

(** No step of the trace is a spurious wake-up of thread [u]. *)
Definition is_spurious_wake (u : nat) (x : nat * label) : bool :=
  match x with
  | (v, LSpurious) => Nat.eqb v u
  | _ => false
  end.

Definition no_spurious_wake (u : nat) (tr : list (nat * label)) : bool :=
  forallb (fun x => negb (is_spurious_wake u x)) tr.

(** The events a thread still has to hand to their services. *)
Definition pending (p : pc) : list Z :=
  match p with
  | RD_events evs | Loop_events evs => evs
  | _ => []
  end.

(** Every event a thread still holds is the [data.ptr] of a descriptor
    that is registered now. *)
Definition pending_ok (σ : system) : Prop :=
  ∀ t p q, threads σ !! t = Some p → q ∈ pending p →
           ∃ fd, interest (obj σ) !! fd = Some q.

(** The event fd is registered under the dispatcher's own address. *)
Definition control_signal_registered (s : ServiceDispatcher) : Prop :=
  interest s !! event_fd_ s = Some this.

(** What the registry keeps in every execution. *)
Definition registry_ok (σ : system) : Prop :=
  in_sync (obj σ)
  ∧ control_signal_registered (obj σ)
  ∧ NoDup (services_ (obj σ))
  ∧ pending_ok σ
  ∧ count_ok σ.

(** The status a [ReceiveAndDispatch] that got past [ThreadEnter] returns,
    read off the wait result alone. *)
Definition batch_status (w : wait_result) : Z :=
  match w with
  | WaitFail e => neg_errno e
  | WaitReady [] => neg_errno ETIMEDOUT
  | WaitReady evs => if bool_decide (this ∈ evs) then neg_errno EBUSY else 0
  end.

(** A wait result that makes the loop of [EnterDispatchLoop] return: a
    failure other than EINTR, or a batch holding the dispatcher's own
    address. *)
Definition ends_loop (w : wait_result) : bool :=
  match w with
  | WaitFail e => negb (Pos.eqb e EINTR)
  | WaitReady evs => bool_decide (this ∈ evs)
  end.

(** ** Sequential behaviour of the member functions *)

Lemma dispatch_all_fields evs s :
  thread_count_ (dispatch_all evs s) = thread_count_ s
  ∧ canceled_ (dispatch_all evs s) = canceled_ s
  ∧ services_ (dispatch_all evs s) = services_ s
  ∧ interest (dispatch_all evs s) = interest s
  ∧ event_counter (dispatch_all evs s) = event_counter s
  ∧ history (dispatch_all evs s) = history s ++ map EvDispatch evs.
Proof.
  revert s. induction evs as [|p evs IH]; intros s.
  - cbn. by rewrite app_nil_r.
  - change (dispatch_all (p :: evs) s)
      with (dispatch_all evs (Service_ReceiveAndDispatch p s)).
    destruct (IH (Service_ReceiveAndDispatch p s)) as (-> & -> & -> & -> & -> & ->).
    cbn. by rewrite <- app_assoc.
Qed.

(** The [for] loop stops at the first occurrence of the dispatcher's own
    address, after handing every earlier event to its service. *)
Lemma dispatch_events_hit pre post s :
  this ∉ pre →
  dispatch_events (pre ++ this :: post) s
  = (Some (neg_errno EBUSY), ThreadExit (dispatch_all pre s)).
Proof.
  revert s. induction pre as [|p pre IH]; intros s Hpre; cbn.
  - by rewrite Z.eqb_refl.
  - apply not_elem_of_cons in Hpre as [Hne Hpre].
    destruct (Z.eqb_spec p this) as [->|_]; [done|].
    by apply IH.
Qed.

Lemma dispatch_events_miss evs s :
  this ∉ evs → dispatch_events evs s = (None, dispatch_all evs s).
Proof.
  revert s. induction evs as [|p evs IH]; intros s Hevs; cbn; [done|].
  apply not_elem_of_cons in Hevs as [Hne Hevs].
  destruct (Z.eqb_spec p this) as [->|_]; [done|].
  by apply IH.
Qed.

(** Every list either misses [this] or splits at its first occurrence. *)
Lemma first_occurrence (evs : list Z) :
  this ∉ evs ∨ ∃ pre post, evs = pre ++ this :: post ∧ this ∉ pre.
Proof.
  induction evs as [|p evs IH]; [left; apply not_elem_of_nil|].
  destruct (decide (p = this)) as [->|Hne].
  - right. exists [], evs. split; [done|apply not_elem_of_nil].
  - destruct IH as [Hmiss|(pre & post & -> & Hpre)].
    + left. by apply not_elem_of_cons.
    + right. exists (p :: pre), post. split; [done|].
      by apply not_elem_of_cons.
Qed.

Lemma occurrences_app e h1 h2 :
  occurrences e (h1 ++ h2) = (occurrences e h1 + occurrences e h2)%nat.
Proof. unfold occurrences. by rewrite filter_app, length_app. Qed.

Lemma occurrences_dispatch e evs :
  (∀ p, e ≠ EvDispatch p) → occurrences e (map EvDispatch evs) = 0%nat.
Proof.
  intros He. unfold occurrences.
  induction evs as [|p evs IH]; [done|].
  change (map EvDispatch (p :: evs)) with (EvDispatch p :: map EvDispatch evs).
  rewrite filter_cons. destruct (decide (EvDispatch p = e)) as [Heq|_]; [|done].
  by destruct (He p).
Qed.

(** What one [ReceiveAndDispatch] that got past [ThreadEnter] does, for
    every result of its wait: the events handed to services are a prefix of
    the batch, and the history grows by one enter, the wait, those
    dispatches and one exit. *)
Lemma ReceiveAndDispatch_history timeout w s :
  canceled_ s = false →
  ∃ served,
    (served `prefix_of` wait_events w)
    ∧ (this ∉ served)
    ∧ thread_count_ (ReceiveAndDispatch timeout w s).2 = thread_count_ s
    ∧ history (ReceiveAndDispatch timeout w s).2
      = history s ++ [EvEnter; EvWait timeout] ++ map EvDispatch served ++ [EvExit].
Proof.
  intros Hc. unfold ReceiveAndDispatch, ThreadEnter. rewrite Hc. cbn [Z.ltb Z.compare].
  destruct (wait_count w <=? 0) eqn:Hcount.
  - exists []. cbn. repeat split; [apply prefix_nil|apply not_elem_of_nil|lia|].
    by rewrite <- !app_assoc.
  - destruct (first_occurrence (wait_events w)) as [Hmiss|(pre & post & Hw & Hpre)].
    + rewrite (dispatch_events_miss _ _ Hmiss).
      exists (wait_events w). cbn.
      destruct (dispatch_all_fields (wait_events w)
                  (record (EvWait timeout)
                     (record EvEnter (set_thread_count (thread_count_ s + 1) s))))
        as (-> & _ & _ & _ & _ & ->).
      cbn. repeat split; [done|done|lia|].
      by rewrite <- !app_assoc.
    + rewrite Hw, (dispatch_events_hit _ _ _ Hpre).
      exists pre. cbn.
      destruct (dispatch_all_fields pre
                  (record (EvWait timeout)
                     (record EvEnter (set_thread_count (thread_count_ s + 1) s))))
        as (-> & _ & _ & _ & _ & ->).
      cbn. repeat split; [by apply prefix_app_r|done|lia|].
      by rewrite <- !app_assoc.
Qed.

(** C2: a [ReceiveAndDispatch(timeout)] whose [ThreadEnter] succeeded
    (returned 0, having incremented the count) runs [ThreadExit] exactly once,
    as the last thing it does, whatever its wait gives (failure, timeout,
    a batch holding the control signal, a batch without it); the count it
    leaves is the count it found. *)
Theorem ReceiveAndDispatch_balanced timeout w s :
  (ThreadEnter s).1 = 0 →
  thread_count_ (ReceiveAndDispatch timeout w s).2 = thread_count_ s
  ∧ occurrences EvEnter (history (ReceiveAndDispatch timeout w s).2)
    = S (occurrences EvEnter (history s))
  ∧ occurrences EvExit (history (ReceiveAndDispatch timeout w s).2)
    = S (occurrences EvExit (history s))
  ∧ last (history (ReceiveAndDispatch timeout w s).2) = Some EvExit.
Proof.
  intros Henter.
  assert (canceled_ s = false) as Hc.
  { unfold ThreadEnter in Henter. by destruct (canceled_ s). }
  destruct (ReceiveAndDispatch_history timeout w s Hc)
    as (served & _ & _ & Hcount & Hhist).
  rewrite Hhist. split; [done|].
  rewrite !occurrences_app, !occurrences_dispatch by done.
  change (occurrences EvEnter [EvEnter; EvWait timeout]) with 1%nat.
  change (occurrences EvExit [EvEnter; EvWait timeout]) with 0%nat.
  change (occurrences EvEnter [EvExit]) with 0%nat.
  change (occurrences EvExit [EvExit]) with 1%nat.
  repeat split; [lia|lia|].
  by rewrite !app_assoc, last_snoc.
Qed.

(** C4: when the batch holds the dispatcher's own address at position [i]
    (its first occurrence; epoll reports a registration once per wait), the
    call returns -EBUSY, the services called are exactly the events before
    position [i], in order, and the exit follows at once: nothing after
    position [i] is handed to a service. *)
Theorem ReceiveAndDispatch_control_signal timeout (evs : list Z) (i : nat) s :
  (ThreadEnter s).1 = 0 →
  evs !! i = Some this →
  (∀ j, (j < i)%nat → evs !! j ≠ Some this) →
  (ReceiveAndDispatch timeout (WaitReady evs) s).1 = -16
  ∧ history (ReceiveAndDispatch timeout (WaitReady evs) s).2
    = history s ++ [EvEnter; EvWait timeout]
      ++ map EvDispatch (take i evs) ++ [EvExit].
Proof.
  intros Henter Hi Hfirst.
  assert (canceled_ s = false) as Hc.
  { unfold ThreadEnter in Henter. by destruct (canceled_ s). }
  assert (this ∉ take i evs) as Hpre.
  { intros Hin. apply list_elem_of_lookup in Hin as [j Hj].
    apply lookup_take_Some in Hj as [Hj Hlt]. by apply (Hfirst j). }
  assert (evs = take i evs ++ this :: drop (S i) evs) as Hsplit.
  { rewrite <- (take_drop_middle evs i this Hi) at 1. done. }
  assert (0 < wait_count (WaitReady evs)) as Hpos.
  { apply lookup_lt_Some in Hi. cbn. lia. }
  pose proof (dispatch_events_hit (take i evs) (drop (S i) evs)
                (record (EvWait timeout)
                   (record EvEnter (set_thread_count (thread_count_ s + 1) s)))
                Hpre) as Hhit.
  rewrite <- Hsplit in Hhit.
  unfold ReceiveAndDispatch, ThreadEnter. rewrite Hc. cbn [Z.ltb Z.compare].
  destruct (Z.leb_spec (wait_count (WaitReady evs)) 0); [lia|].
  cbn [wait_events]. rewrite Hhit. cbn [fst snd].
  split; [done|].
  change (history (ThreadExit ?x)) with (history x ++ [EvExit]).
  destruct (dispatch_all_fields (take i evs)
              (record (EvWait timeout)
                 (record EvEnter (set_thread_count (thread_count_ s + 1) s))))
    as (_ & _ & _ & _ & _ & ->).
  cbn. by rewrite <- !app_assoc.
Qed.

(** C5: [Create] gives no dispatcher when [eventfd] fails, when
    [epoll_create] fails, or when the [epoll_ctl] of the event fd fails; a
    dispatcher it does give has both handles valid and the event fd
    registered in its epoll instance under the dispatcher's address. *)
Theorem Create_all_or_nothing r_eventfd r_epoll_create ctl_fault :
  (r_eventfd < 0 ∨ r_epoll_create < 0 ∨ is_Some ctl_fault →
   Create r_eventfd r_epoll_create ctl_fault = None)
  ∧ (∀ d, Create r_eventfd r_epoll_create ctl_fault = Some d →
       handle_valid (event_fd_ d) = true
       ∧ handle_valid (epoll_fd_ d) = true
       ∧ interest d !! event_fd_ d = Some this
       ∧ event_fd_ d = r_eventfd ∧ epoll_fd_ d = r_epoll_create
       ∧ ctl_fault = None).
Proof.
  unfold Create, ctor, handle_valid. cbn [event_fd_ epoll_fd_ interest].
  destruct (Z.leb_spec 0 r_eventfd) as [He|He]; cbn [negb].
  - destruct (Z.leb_spec 0 r_epoll_create) as [Hp|Hp]; cbn [negb].
    + destruct ctl_fault as [e|]; cbn.
      * split; [done|]. intros d [=].
      * rewrite lookup_empty. cbn.
        destruct (Z.leb_spec 0 r_epoll_create); [|lia].
        destruct (Z.leb_spec 0 r_eventfd); [|lia]. cbn.
        split.
        { intros [?|[?|[? [=]]]]; lia. }
        intros d [= <-]. cbn.
        rewrite lookup_insert_eq.
        destruct (Z.leb_spec 0 r_epoll_create); [|lia].
        destruct (Z.leb_spec 0 r_eventfd); [|lia]. done.
    + cbn. destruct (Z.leb_spec 0 r_epoll_create); [lia|]. cbn.
      split; [done|]. intros d [=].
  - cbn. split; [done|]. intros d [=].
Qed.

Lemma apply_op_failure o s :
  (apply_op o s).1 ≠ 0 → (apply_op o s).2 = s.
Proof.
  destruct o as [service fault|service fault]; cbn;
    unfold AddService, RemoveService;
    repeat (case_match; cbn; try done).
Qed.


(** Successful calls keep the lockstep as well, as long as no two services
    share an endpoint descriptor. *)
Lemma apply_op_in_sync o s :
  (∀ p q, endpoint_epoll_fd p = endpoint_epoll_fd q → p = q) →
  in_sync s → in_sync (apply_op o s).2.
Proof.
  intros Hinj [Hreg Hint].
  destruct (decide ((apply_op o s).1 = 0)) as [Hok|Hfail];
    [|by rewrite apply_op_failure].
  revert Hok. destruct o as [service fault|service fault]; cbn;
    unfold AddService, RemoveService, epoll_ctl;
    repeat (case_match; cbn; try done); intros _; simplify_eq; split; cbn.
  - intros p [Hp| ->%list_elem_of_singleton]%elem_of_app.
    + rewrite lookup_insert_ne; [by apply Hreg|].
      intros Heq. apply Hreg in Hp. congruence.
    + by rewrite lookup_insert_eq.
  - intros fd p Hfd Hne. rewrite elem_of_app, list_elem_of_singleton.
    destruct (decide (endpoint_epoll_fd service = fd)) as [<-|Hother].
    + rewrite lookup_insert_eq in Hfd. by simplify_eq; auto.
    + rewrite lookup_insert_ne in Hfd by done.
      destruct (Hint _ _ Hfd Hne); auto.
  - intros p [Hne Hp]%list_elem_of_filter.
    rewrite lookup_delete_ne; [by apply Hreg|].
    intros Heq. by apply Hinj in Heq.
  - intros fd p Hfd Hne.
    destruct (decide (endpoint_epoll_fd service = fd)) as [<-|Hother].
    + by rewrite lookup_delete_eq in Hfd.
    + rewrite lookup_delete_ne in Hfd by done.
      destruct (Hint _ _ Hfd Hne) as [Hp Hfdp]. split; [|done].
      apply list_elem_of_filter. split; [congruence|done].
Qed.

(** C6: when the [epoll_ctl] of [AddService] fails, the call returns that
    errno negated and the object is as before (no registry entry, no
    registration); when the [epoll_ctl] of [RemoveService] fails, likewise
    (the entry and its registration stay); and any call that reports an
    error leaves registry and interest list untouched, so a lockstep that
    held before still holds. *)
Theorem registry_lockstep_on_failure s :
  (∀ fault service e,
     ipc_tag service = kIpcTag →
     (epoll_ctl fault EPOLL_CTL_ADD (endpoint_epoll_fd service) service
                (interest s)).1 = Some e →
     AddService fault service s = (neg_errno e, s))
  ∧ (∀ fault service e,
       ipc_tag service = kIpcTag →
       thread_count_ s ≤ 0 →
       (epoll_ctl fault EPOLL_CTL_DEL (endpoint_epoll_fd service) 0
                  (interest s)).1 = Some e →
       RemoveService fault service s = (neg_errno e, s))
  ∧ (∀ o,
       (apply_op o s).1 ≠ 0 →
       services_ (apply_op o s).2 = services_ s
       ∧ interest (apply_op o s).2 = interest s
       ∧ (in_sync s → in_sync (apply_op o s).2)).
Proof.
  split; [|split].
  - intros fault service e Htag Hctl. unfold AddService.
    rewrite Htag, Z.eqb_refl. cbn [negb].
    destruct (epoll_ctl _ _ _ _ _) as [[e'|] m]; cbn in Hctl; by simplify_eq.
  - intros fault service e Htag Hcount Hctl. unfold RemoveService.
    rewrite Htag, Z.eqb_refl. cbn [negb].
    destruct (Z.gtb_spec (thread_count_ s) 0); [lia|].
    destruct (epoll_ctl _ _ _ _ _) as [[e'|] m]; cbn in Hctl; by simplify_eq.
  - intros o Hfail. by rewrite (apply_op_failure o s Hfail).
Qed.







(** C9: in the loop of [EnterDispatchLoop], a wait that fails with EINTR
    returns nothing and leaves the count alone: the loop goes on as it
    would have without that wait (only the wait itself is recorded), and, if
    no further result comes, the thread is back in [epoll_wait]; a wait that
    fails with any other errno runs [ThreadExit] and returns that errno
    negated.  The same as steps of a thread: after EINTR the thread is at
    the loop test, still inside; after another errno it exits and returns. *)
Theorem dispatch_loop_wait_errors ws s :
  IsCanceled s = false →
  dispatch_loop (WaitFail EINTR :: ws) s
  = dispatch_loop ws (record (EvWait (-1)) s)
  ∧ thread_count_ (record (EvWait (-1)) s) = thread_count_ s
  ∧ dispatch_loop [WaitFail EINTR] s = None
  ∧ run_thread [LWait (KFail EINTR); LStep; LStep] Loop_wait s
    = Some (Loop_wait, record (EvWait (-1)) s)
  ∧ (∀ e, e ≠ EINTR →
       dispatch_loop (WaitFail e :: ws) s
       = Some (neg_errno e, ThreadExit (record (EvWait (-1)) s))
       ∧ thread_count_ (ThreadExit (record (EvWait (-1)) s)) = thread_count_ s - 1
       ∧ run_thread [LWait (KFail e); LExit None] Loop_wait s
         = Some (Returned FEnterDispatchLoop (neg_errno e),
                 ThreadExit (record (EvWait (-1)) s))).
Proof.
  intros Hc.
  split; [|split; [done|split; [|split]]].
  - cbn [dispatch_loop]. by rewrite Hc.
  - cbn [dispatch_loop]. rewrite Hc. cbn. unfold IsCanceled in Hc. by rewrite Hc.
  - cbn. unfold IsCanceled in *. cbn. by rewrite Hc.
  - intros e He. apply Pos.eqb_neq in He. split; [|split; [cbn; lia|]].
    + cbn [dispatch_loop wait_count wait_errno]. by rewrite Hc, He.
    + cbn -[Pos.eqb]. by rewrite He.
Qed.

(** C10: [ReceiveAndDispatch()] returns what [ReceiveAndDispatch(-1)]
    returns and leaves the same state, as a whole call and as the first step
    of a thread; the wait it issues has timeout -1, an [epoll_wait] that
    cannot report an expired timeout. *)
Theorem ReceiveAndDispatch0_is_infinite_timeout w s :
  ReceiveAndDispatch0 w s = ReceiveAndDispatch (-1) w s
  ∧ start_call CReceiveAndDispatch0 s = start_call (CReceiveAndDispatch (-1)) s
  ∧ epoll_wait (-1) (KReady []) s = None
  ∧ ((ThreadEnter s).1 = 0 →
     EvWait (-1) ∈ drop (length (history s)) (history (ReceiveAndDispatch0 w s).2)).
Proof.
  repeat split.
  intros Henter.
  assert (canceled_ s = false) as Hc.
  { unfold ThreadEnter in Henter. by destruct (canceled_ s). }
  unfold ReceiveAndDispatch0.
  destruct (ReceiveAndDispatch_history (-1) w s Hc) as (served & _ & _ & _ & ->).
  rewrite drop_app_length. set_solver.
Qed.

(** ** The threads *)

(** *** The member functions are the thread steps run without interruption *)

Lemma run_thread_app ls1 ls2 p s p1 s1 :
  run_thread ls1 p s = Some (p1, s1) →
  run_thread (ls1 ++ ls2) p s = run_thread ls2 p1 s1.
Proof.
  revert p s. induction ls1 as [|l ls1 IH]; intros p s H; cbn in *.
  - by simplify_eq.
  - destruct (thread_step l p s) as [[p' s']|]; [|done]. cbn in *. by apply IH.
Qed.

Lemma epoll_wait_same_kernel timeout r s0 s :
  same_kernel s0 s → epoll_wait timeout r s = epoll_wait timeout r s0.
Proof.
  destruct s0, s. intros (H1 & H2 & H3). cbn in *. subst.
  by destruct r as [e|[|fd fds]].
Qed.

Lemma dispatch_events_same_kernel evs s0 s :
  same_kernel s0 s → same_kernel s0 (dispatch_events evs s).2.
Proof.
  revert s. induction evs as [|p evs IH]; intros s Hk; cbn; [done|].
  destruct (p =? this); cbn; [done|]. by apply IH.
Qed.

(** The [for] loop of [ReceiveAndDispatch], followed by the exit. *)
Lemma RD_events_run evs s :
  ∃ ls,
    run_thread ls (RD_events evs) s
    = Some (match dispatch_events evs s with
            | (Some r, s3) => (Returned FReceiveAndDispatch r, s3)
            | (None, s3) => (Returned FReceiveAndDispatch 0, ThreadExit s3)
            end).
Proof.
  revert s. induction evs as [|p evs IH]; intros s.
  - by exists [LStep; LExit None].
  - cbn [dispatch_events]. destruct (p =? this) eqn:Hp.
    + exists [LStep; LExit None]. cbn. by rewrite Hp.
    + destruct (IH (Service_ReceiveAndDispatch p s)) as [ls Hls].
      exists (LStep :: ls). cbn. by rewrite Hp.
Qed.

(** [ReceiveAndDispatch(timeout)] is the run of its thread steps. *)
Lemma ReceiveAndDispatch_run timeout r w s :
  epoll_wait timeout r s = Some w →
  ∃ ls,
    run_thread (LCall (CReceiveAndDispatch timeout) :: ls) Idle s
    = Some (Returned FReceiveAndDispatch (ReceiveAndDispatch timeout w s).1,
            (ReceiveAndDispatch timeout w s).2).
Proof.
  intros Hw. unfold ReceiveAndDispatch. cbn [run_thread thread_step start_call].
  unfold enter, ThreadEnter. destruct (canceled_ s) eqn:Hc; cbn.
  - by exists [].
  - set (s1 := record EvEnter (set_thread_count (thread_count_ s + 1) s)).
    assert (epoll_wait timeout r s1 = Some w) as Hw1.
    { rewrite <- Hw. by apply epoll_wait_same_kernel. }
    destruct (wait_count w <=? 0) eqn:Hcount.
    + exists [LWait r; LExit None]. cbn. rewrite Hw1. cbn. by rewrite Hcount.
    + destruct (RD_events_run (wait_events w) (record (EvWait timeout) s1))
        as [ls Hls].
      exists (LWait r :: ls). cbn. rewrite Hw1. cbn. rewrite Hcount, Hls.
      by destruct (dispatch_events _ _) as [[?|] ?].
Qed.

(** The [for] loop of [EnterDispatchLoop]: it ends in the return of -EBUSY
    or back at the loop test. *)
Lemma Loop_events_run evs s :
  ∃ ls,
    run_thread ls (Loop_events evs) s
    = Some (match dispatch_events evs s with
            | (Some r, s3) => (Returned FEnterDispatchLoop r, s3)
            | (None, s3) => (Loop_test, s3)
            end).
Proof.
  revert s. induction evs as [|p evs IH]; intros s.
  - by exists [LStep].
  - cbn [dispatch_events]. destruct (p =? this) eqn:Hp.
    + exists [LStep; LExit None]. cbn. by rewrite Hp.
    + destruct (IH (Service_ReceiveAndDispatch p s)) as [ls Hls].
      exists (LStep :: ls). cbn. by rewrite Hp.
Qed.

(** The loop of [EnterDispatchLoop] is the run of its thread steps, for
    wait results the kernel can report. *)
Lemma dispatch_loop_run s0 rs ws s ret s' :
  Forall2 (λ r w, epoll_wait (-1) r s0 = Some w) rs ws →
  same_kernel s0 s →
  dispatch_loop ws s = Some (ret, s') →
  ∃ ls, run_thread ls Loop_test s = Some (Returned FEnterDispatchLoop ret, s').
Proof.
  assert (∀ s1, canceled_ s1 = true →
            run_thread [LStep; LExit None] Loop_test s1
            = Some (Returned FEnterDispatchLoop 0, ThreadExit s1)) as Hquit.
  { intros s1 Hc. cbn. unfold IsCanceled. by rewrite Hc. }
  intros Hrs. revert s.
  induction Hrs as [|r w rs ws Hw _ IH]; intros s Hk Hloop;
    cbn [dispatch_loop] in Hloop; unfold IsCanceled in Hloop;
    destruct (canceled_ s) eqn:Hc.
  { simplify_eq. eexists. by apply Hquit. }
  { done. }
  { simplify_eq. eexists. by apply Hquit. }
  rewrite <- (epoll_wait_same_kernel _ _ _ _ Hk) in Hw.
  assert (run_thread [LStep; LWait r] Loop_test s
          = Some (if (wait_count w <? 0) && negb (Pos.eqb (wait_errno w) EINTR)
                  then Exiting ViaEnterDispatchLoop (neg_errno (wait_errno w))
                  else Loop_events (wait_events w),
                  record (EvWait (-1)) s)) as Hhead.
  { cbn -[Pos.eqb]. unfold IsCanceled. rewrite Hc. cbn -[Pos.eqb].
    rewrite Hw. done. }
  destruct ((wait_count w <? 0) && negb (Pos.eqb (wait_errno w) EINTR)) eqn:Hfail.
  - simplify_eq. exists ([LStep; LWait r] ++ [LExit None]).
    by rewrite (run_thread_app _ _ _ _ _ _ Hhead).
  - destruct (Loop_events_run (wait_events w) (record (EvWait (-1)) s))
      as [ls1 Hls1].
    pose proof (dispatch_events_same_kernel (wait_events w) s0
                  (record (EvWait (-1)) s) Hk) as Hk1.
    destruct (dispatch_events (wait_events w) (record (EvWait (-1)) s))
      as [[r1|] s2] eqn:Hev.
    + simplify_eq. exists ([LStep; LWait r] ++ ls1).
      by rewrite (run_thread_app _ _ _ _ _ _ Hhead).
    + destruct (IH s2 Hk1 Hloop) as [ls2 Hls2].
      exists ([LStep; LWait r] ++ ls1 ++ ls2).
      rewrite (run_thread_app _ _ _ _ _ _ Hhead).
      by rewrite (run_thread_app _ _ _ _ _ _ Hls1).
Qed.


(** [EnterDispatchLoop] is the run of its thread steps. *)
Lemma EnterDispatchLoop_run rs ws s ret s' :
  Forall2 (λ r w, epoll_wait (-1) r s = Some w) rs ws →
  EnterDispatchLoop ws s = Some (ret, s') →
  ∃ ls,
    run_thread (LCall CEnterDispatchLoop :: ls) Idle s
    = Some (Returned FEnterDispatchLoop ret, s').
Proof.
  intros Hrs. unfold EnterDispatchLoop.
  cbn [run_thread thread_step start_call]. unfold enter, ThreadEnter.
  destruct (canceled_ s) eqn:Hc; cbn.
  - intros [= <- <-]. by exists [].
  - intros Hloop.
    apply (dispatch_loop_run s rs ws) in Hloop as [ls Hls]; [|done|done].
    by exists ls.
Qed.

Ltac pair_eq H :=
  first
    [ injection H as <- <-
    | injection H as H;
      match type of H with
      | ?x = (_, _) => rewrite (surjective_pairing x) in H; injection H as <- <-
      end ].

Lemma thread_step_steps l p s p' s' :
  thread_step l p s = Some (p', s') → thread_steps l p s p' s'.
Proof.
  intros H. destruct p, l; try discriminate H; cbn in H.
  - pair_eq H. constructor.
  - destruct (epoll_wait timeout r s) as [w|] eqn:Hw; [|discriminate H].
    cbn in H. pair_eq H. by constructor.
  - pair_eq H. constructor.
  - pair_eq H. cbn. constructor.
  - destruct (epoll_wait (-1) r s) as [w|] eqn:Hw; [|discriminate H].
    cbn in H. pair_eq H. by constructor.
  - pair_eq H. constructor.
  - pair_eq H. constructor.
  - pair_eq H. constructor.
  - destruct (SetCanceled_resume s) as [s1|] eqn:Hr; pair_eq H; by constructor.
  - pair_eq H. constructor.
Qed.

Lemma count_inside_nonneg ths : 0 ≤ count_inside ths.
Proof.
  induction ths as [|p ths IH]; cbn [count_inside]; [done|].
  destruct (inside p); cbn; lia.
Qed.

Lemma count_inside_insert ths t p p' :
  ths !! t = Some p →
  count_inside (<[t := p']> ths)
  = count_inside ths + Z.b2z (inside p') - Z.b2z (inside p).
Proof.
  revert t. induction ths as [|q ths IH]; intros [|t] Hp; try done.
  - change (Some q = Some p) in Hp. simplify_eq.
    change (<[0%nat := p']> (p :: ths)) with (p' :: ths).
    cbn [count_inside]. lia.
  - change (ths !! t = Some p) in Hp.
    change (<[S t := p']> (q :: ths)) with (q :: <[t := p']> ths).
    cbn [count_inside]. rewrite (IH t Hp). lia.
Qed.

Lemma count_inside_replicate n : count_inside (replicate n Idle) = 0.
Proof. induction n as [|n IH]; [done|]. cbn. by rewrite IH. Qed.

Lemma event_step_fields f again after evs s :
  (∀ l, inside (again l) = true) → inside after = true →
  inside (event_step f again after evs s).1 = true
  ∧ cancelling (event_step f again after evs s).1 = false
  ∧ thread_count_ (event_step f again after evs s).2 = thread_count_ s
  ∧ canceled_ (event_step f again after evs s).2 = canceled_ s
  ∧ event_counter (event_step f again after evs s).2 = event_counter s.
Proof.
  intros Hagain Hafter. unfold event_step.
  assert (∀ q, inside q = true → cancelling q = false) as Hic by by intros [].
  destruct evs as [|p rest]; [cbn; auto 6|].
  destruct (p =? this); cbn; auto 6.
Qed.

(** What the start of a call does to the shared fields. *)
Lemma start_call_fields c s :
  thread_count_ (start_call c s).2
  = thread_count_ s + Z.b2z (inside (start_call c s).1)
  ∧ (inside (start_call c s).1 = true → canceled_ s = false)
  ∧ (cancelling (start_call c s).1 = false →
     event_counter (start_call c s).2 = event_counter s)
  ∧ ((∀ b, c ≠ CSetCanceled b) →
     canceled_ (start_call c s).2 = canceled_ s
     ∧ cancelling (start_call c s).1 = false)
  ∧ (∀ ret, (start_call c s).1 = Returned (FSetCanceled true) ret →
     wait_pred (start_call c s).2 = true)
  ∧ (c = CSetCanceled true →
     canceled_ (start_call c s).2 = true
     ∧ (cancelling (start_call c s).1 = false →
        (start_call c s).1 = Returned (FSetCanceled true) 0)).
Proof.
  destruct c as [service fault|service fault| |timeout| |cancel]; cbn;
    unfold enter, ThreadEnter, AddService, RemoveService, SetCanceled_begin,
      wait_pred;
    cbn;
    repeat (case_match; cbn in *; simplify_eq; try lia);
    repeat split; intros; simplify_eq; cbn in *;
    try done; try lia; try congruence;
    match goal with
    | H : ∀ b, CSetCanceled ?c ≠ CSetCanceled b |- _ => by destruct (H c)
    end.
Qed.

Lemma SetCanceled_resume_fields s s' :
  SetCanceled_resume s = Some s' →
  wait_pred s = true ∧ wait_pred s' = true
  ∧ thread_count_ s' = thread_count_ s ∧ canceled_ s' = canceled_ s
  ∧ event_counter s' = 0.
Proof.
  unfold SetCanceled_resume. destruct (wait_pred s) eqn:Hp; [|done].
  by intros [= <-].
Qed.

(** What one step of a thread does to the shared fields. *)
Lemma thread_steps_fields l p s p' s' :
  thread_steps l p s p' s' →
  thread_count_ s' = thread_count_ s + Z.b2z (inside p') - Z.b2z (inside p)
  ∧ (inside p = false → inside p' = true → canceled_ s = false)
  ∧ (cancelling p' = false → cancelling p = false →
     event_counter s' = event_counter s)
  ∧ (cancelling p = true → cancelling p' = false →
     wait_pred s = true ∧ event_counter s' = 0)
  ∧ ((∀ b, l ≠ LCall (CSetCanceled b)) →
     canceled_ s' = canceled_ s ∧ (cancelling p' = true → cancelling p = true))
  ∧ (∀ ret, p' = Returned (FSetCanceled true) ret → wait_pred s' = true)
  ∧ (l = LCall (CSetCanceled true) →
     canceled_ s' = true
     ∧ (cancelling p' = false → p' = Returned (FSetCanceled true) 0))
  ∧ (∀ target, l = LExit target → cancelling p' = false).
Proof.
  assert (∀ c, (∀ b, LCall c ≠ LCall (CSetCanceled b)) →
               ∀ b, c ≠ CSetCanceled b) as Hcall by (intros c H b ->; by apply (H b)).
  intros [c s0|f ret c s0|timeout r w s0 Hw|evs s0|s0|r w s0 Hw|evs s0
         |f ret target s0|s0|s0 s1 Hr|s0 Hr].
  - destruct (start_call_fields c s0) as (H1 & H2 & H3 & H4 & H5 & H6).
    cbn [inside cancelling Z.b2z]. split_and!; try done; try lia; auto.
    + intros Hl. destruct (H4 (Hcall _ Hl)) as [? Hn]. split; [done|].
      by rewrite Hn.
    + intros [= ->]. by apply H6.
  - destruct (start_call_fields c s0) as (H1 & H2 & H3 & H4 & H5 & H6).
    cbn [inside cancelling Z.b2z]. split_and!; try done; try lia; auto.
    + intros Hl. destruct (H4 (Hcall _ Hl)) as [? Hn]. split; [done|].
      by rewrite Hn.
    + intros [= ->]. by apply H6.
  - repeat split; try done; repeat case_match; cbn; try done; lia.
  - destruct (event_step_fields ViaReceiveAndDispatch RD_events
                (Exiting ViaReceiveAndDispatch 0) evs s0)
      as (Hi & Hc & Hn & Hf & He); [done..|].
    rewrite Hi, Hc, Hn, Hf, He.
    repeat split; try done; cbn; try lia. intros ret Hret. by rewrite Hret in Hi.
  - repeat split; try done; repeat case_match; cbn; try done; lia.
  - repeat split; try done; repeat case_match; cbn; try done; lia.
  - destruct (event_step_fields ViaEnterDispatchLoop Loop_events
                Loop_test evs s0)
      as (Hi & Hc & Hn & Hf & He); [done..|].
    rewrite Hi, Hc, Hn, Hf, He.
    repeat split; try done; cbn; try lia. intros ret Hret. by rewrite Hret in Hi.
  - repeat split; try done; cbn; try lia. by destruct f.
  - repeat split; try done; cbn; lia.
  - destruct (SetCanceled_resume_fields _ _ Hr) as (H1 & H2 & H3 & H4 & H5).
    repeat split; try done; cbn; lia.
  - repeat split; try done; cbn; lia.
Qed.

Lemma notify_one_woken target ths ths' :
  notify_one target ths = Some ths' → woken ths ths'.
Proof.
  unfold notify_one, woken. destruct target as [u|].
  - destruct (ths !! u) as [[]|] eqn:Hu; try done.
    intros [= <-]. right. by exists u.
  - case_match; [done|]. intros [= <-]. by left.
Qed.

(** A step of the system is a step of one thread on the shared object,
    followed by what [notify_one] does when the step is a ThreadExit. *)
Lemma step_inv t l σ σ' :
  step t l σ = Some σ' →
  ∃ p p',
    threads σ !! t = Some p
    ∧ thread_steps l p (obj σ) p' (obj σ')
    ∧ woken (<[t := p']> (threads σ)) (threads σ')
    ∧ ((∀ target, l ≠ LExit target) → threads σ' = <[t := p']> (threads σ)).
Proof.
  unfold step. intros H.
  destruct (threads σ !! t) as [p|] eqn:Hp; [|done]. cbn in H.
  destruct (thread_step l p (obj σ)) as [[p' s']|] eqn:Hs; [|done]. cbn in H.
  apply thread_step_steps in Hs. exists p, p'.
  destruct l; try (injection H as <-; cbn; repeat split; try done; by left).
  destruct (notify_one notify (<[t:=p']> (threads σ))) as [ths'|] eqn:Hn;
    [|done].
  injection H as <-. cbn. repeat split; try done.
  - by eapply notify_one_woken.
  - intros Hl. by destruct (Hl notify).
Qed.

Lemma woken_count ths ths' :
  woken ths ths' → count_inside ths' = count_inside ths.
Proof.
  intros [->|(u & Hu & ->)]; [done|].
  rewrite (count_inside_insert _ _ _ _ Hu). cbn. lia.
Qed.

Lemma woken_lookup ths ths' v q :
  woken ths ths' → ths' !! v = Some q →
  ths !! v = Some q ∨ (q = SC_woken ∧ ths !! v = Some SC_blocked).
Proof.
  intros [->|(u & Hu & ->)] Hq; [by left|].
  destruct (decide (u = v)) as [->|Hne].
  - rewrite list_lookup_insert_eq in Hq by by eapply lookup_lt_Some.
    right. by simplify_eq.
  - rewrite list_lookup_insert_ne in Hq by done. by left.
Qed.

Lemma insert_lookup_cases (ths : list pc) t p p' v q :
  ths !! t = Some p → <[t := p']> ths !! v = Some q →
  (v = t ∧ q = p') ∨ (v ≠ t ∧ ths !! v = Some q).
Proof.
  intros Hp Hq. destruct (decide (t = v)) as [->|Hne].
  - rewrite list_lookup_insert_eq in Hq by by eapply lookup_lt_Some.
    left. by simplify_eq.
  - rewrite list_lookup_insert_ne in Hq by done. by right.
Qed.

Lemma count_inside_lookup ths t p :
  ths !! t = Some p → inside p = true → 1 ≤ count_inside ths.
Proof.
  revert t. induction ths as [|q ths IH]; intros [|t] Hp Hin; try done.
  - change (Some q = Some p) in Hp. simplify_eq. cbn [count_inside].
    rewrite Hin. pose proof (count_inside_nonneg ths). cbn. lia.
  - change (ths !! t = Some p) in Hp. cbn [count_inside].
    specialize (IH t Hp Hin). destruct (inside q); cbn; lia.
Qed.

Lemma step_count_ok t l σ σ' :
  count_ok σ → step t l σ = Some σ' → count_ok σ'.
Proof.
  unfold count_ok. intros Hok Hstep.
  destruct (step_inv _ _ _ _ Hstep) as (p & p' & Hp & Hs & Hw & _).
  destruct (thread_steps_fields _ _ _ _ _ Hs) as (Hc & _).
  rewrite (woken_count _ _ Hw), (count_inside_insert _ _ _ _ Hp). lia.
Qed.

Lemma step_signal_ok t l σ σ' :
  signal_ok σ → step t l σ = Some σ' → signal_ok σ'.
Proof.
  unfold signal_ok. intros Hok Hstep Hquiet.
  destruct (step_inv _ _ _ _ Hstep) as (p & p' & Hp & Hs & Hw & _).
  destruct (thread_steps_fields _ _ _ _ _ Hs) as (_ & _ & Hkeep & Hread & _).
  assert (threads σ' = <[t := p']> (threads σ)) as Hths.
  { destruct Hw as [->|(u & Hu & Hths)]; [done|].
    assert (threads σ' !! u = Some SC_woken) as Hwoken.
    { rewrite Hths. apply list_lookup_insert_eq. by eapply lookup_lt_Some. }
    by apply Hquiet in Hwoken. }
  assert (cancelling p' = false) as Hp'.
  { apply (Hquiet t). rewrite Hths.
    apply list_lookup_insert_eq. by eapply lookup_lt_Some. }
  destruct (cancelling p) eqn:Hcp.
  - by apply Hread.
  - rewrite Hkeep by done. apply Hok. intros u q Hq.
    destruct (decide (u = t)) as [->|Hne]; [by simplify_eq|].
    apply (Hquiet u). rewrite Hths. by rewrite list_lookup_insert_ne.
Qed.

Lemma run_invariant (P : system → Prop) tr σ0 σ :
  (∀ t l σ1 σ2, P σ1 → step t l σ1 = Some σ2 → P σ2) →
  P σ0 → run tr σ0 = Some σ → P σ.
Proof.
  intros Hstep. revert σ0. induction tr as [|[t l] tr IH]; intros σ0 H0 Hrun.
  - cbn in Hrun. by simplify_eq.
  - cbn in Hrun. destruct (step t l σ0) as [σ1|] eqn:Hs; [|done].
    cbn in Hrun. eapply IH; [|done]. by eapply Hstep.
Qed.

Lemma init_fields r_eventfd r_epoll_create n σ0 :
  init r_eventfd r_epoll_create n = Some σ0 →
  thread_count_ (obj σ0) = 0 ∧ event_counter (obj σ0) = 0
  ∧ canceled_ (obj σ0) = false ∧ services_ (obj σ0) = []
  ∧ threads σ0 = replicate n Idle.
Proof.
  unfold init, Create, ctor. cbn.
  repeat (case_match; cbn; try done); by intros [= <-].
Qed.

Lemma reachable_invariants σ : reachable σ → count_ok σ ∧ signal_ok σ.
Proof.
  intros (r1 & r2 & n & σ0 & tr & Hinit & Hrun).
  destruct (init_fields _ _ _ _ Hinit) as (Hc & He & _ & _ & Hths).
  apply (run_invariant (λ σ, count_ok σ ∧ signal_ok σ) tr σ0); [|split|done].
  - intros t l σ1 σ2 [H1 H2] Hs. split;
      [by eapply step_count_ok|by eapply step_signal_ok].
  - unfold count_ok. by rewrite Hc, Hths, count_inside_replicate.
  - by intros _.
Qed.

Lemma wait_pred_canceled s :
  wait_pred s = true → canceled_ s = true → thread_count_ s ≤ 0.
Proof.
  unfold wait_pred. intros Hp Hc. rewrite Hc in Hp. cbn in Hp.
  destruct (Z.gtb_spec (thread_count_ s) 0); [done|lia].
Qed.

Lemma inside_not_cancelling p : cancelling p = true → inside p = false.
Proof. by destruct p. Qed.

(** The window is kept by every step that is not a call of [SetCanceled]. *)
Lemma step_cancel_window t u l σ σ' :
  cancel_window t σ → (∀ b, l ≠ LCall (CSetCanceled b)) →
  step u l σ = Some σ' → cancel_window t σ'.
Proof.
  intros (Hok & Hcan & Hmine) Hl Hstep.
  pose proof (step_count_ok _ _ _ _ Hok Hstep) as Hok'.
  destruct (step_inv _ _ _ _ Hstep) as (p & p' & Hp & Hs & Hw & _).
  destruct (thread_steps_fields _ _ _ _ _ Hs)
    as (Hc & Henter & _ & Hread & Hsame & _).
  destruct (Hsame Hl) as [Hcan' _].
  assert (inside p = false → inside p' = false) as Hnoenter.
  { intros Hi. destruct (inside p') eqn:Hi'; [|done].
    specialize (Henter Hi eq_refl). congruence. }
  assert (thread_count_ (obj σ) = 0 → inside p = false) as Hout.
  { intros H0. destruct (inside p) eqn:Hi; [|done].
    pose proof (count_inside_lookup _ _ _ Hp Hi). unfold count_ok in Hok. lia. }
  pose proof (count_inside_nonneg (threads σ)) as Hnonneg.
  unfold count_ok in Hok.
  split_and!; [done|congruence|].
  intros q Hq Hcq.
  destruct (woken_lookup _ _ _ _ Hw Hq) as [Hq1|[-> _]]; [|done].
  destruct (insert_lookup_cases _ _ _ _ _ _ Hp Hq1) as [[-> ->]|[Hne Hq2]].
  - destruct (cancelling p) eqn:Hcp.
    + destruct (Hread eq_refl Hcq) as [Hpred _].
      pose proof (wait_pred_canceled _ Hpred Hcan).
      pose proof (inside_not_cancelling _ Hcp) as Hi.
      rewrite Hc, Hi, (Hnoenter Hi). cbn. lia.
    + pose proof (Hmine p Hp Hcp) as H0.
      rewrite Hc, (Hout H0), (Hnoenter (Hout H0)). cbn. lia.
  - pose proof (Hmine q Hq2 Hcq) as H0.
    rewrite Hc, (Hout H0), (Hnoenter (Hout H0)). cbn. lia.
Qed.

Lemma run_cancel_window t tr σ σ' :
  cancel_window t σ → calls_no_SetCanceled tr = true →
  run tr σ = Some σ' → cancel_window t σ'.
Proof.
  revert σ. induction tr as [|[u l] tr IH]; intros σ Hw Hno Hrun.
  - cbn in Hrun. by simplify_eq.
  - cbn in Hrun, Hno. apply andb_true_iff in Hno as [Hl Hno].
    destruct (step u l σ) as [σ1|] eqn:Hs; [|done]. cbn in Hrun.
    apply (IH σ1); [|done|done].
    apply (step_cancel_window t u l σ); [done| |done].
    intros b ->. done.
Qed.

Lemma quiet_lookup ths u p :
  quiet ths = true → ths !! u = Some p → cancelling p = false.
Proof.
  unfold quiet. revert u. induction ths as [|q ths IH]; intros [|u] Hq Hp;
    try done; cbn in Hq; apply andb_true_iff in Hq as [Hq1 Hq2].
  - change (Some q = Some p) in Hp. simplify_eq. by destruct (cancelling p).
  - change (ths !! u = Some p) in Hp. by apply (IH u).
Qed.

(** The call of [SetCanceled(true)] by [t] opens the window. *)
Lemma start_cancel_window t σ σ' :
  count_ok σ →
  step t (LCall (CSetCanceled true)) σ = Some σ' → cancel_window t σ'.
Proof.
  intros Hok Hstep.
  pose proof (step_count_ok _ _ _ _ Hok Hstep) as Hok'.
  destruct (step_inv _ _ _ _ Hstep) as (p & p' & Hp & Hs & _ & Hths).
  specialize (Hths ltac:(done)).
  destruct (thread_steps_fields _ _ _ _ _ Hs)
    as (_ & _ & _ & _ & _ & Hret & Hstart & _).
  destruct (Hstart eq_refl) as [Hcan Hdone].
  split_and!; [done|done|].
  intros q Hq Hcq.
  rewrite Hths, list_lookup_insert_eq in Hq by by eapply lookup_lt_Some.
  simplify_eq.
  pose proof (wait_pred_canceled _ (Hret _ (Hdone Hcq)) Hcan) as Hle.
  unfold count_ok in Hok'.
  pose proof (count_inside_nonneg (threads σ')). lia.
Qed.

(** C3: [RemoveService] on a service of the right kind while the count is
    positive returns -EBUSY and leaves the whole object, registry and epoll
    interest list included, as it was; in an execution this is the case
    whenever some thread is between its ThreadEnter and its ThreadExit. *)
Theorem RemoveService_busy fault service :
  ipc_tag service = kIpcTag →
  (∀ s, 0 < thread_count_ s → RemoveService fault service s = (-16, s))
  ∧ (∀ σ u p, reachable σ → threads σ !! u = Some p → inside p = true →
       RemoveService fault service (obj σ) = (-16, obj σ)).
Proof.
  intros Htag.
  assert (∀ s, 0 < thread_count_ s → RemoveService fault service s = (-16, s))
    as Hbusy.
  { intros s Hcount. unfold RemoveService.
    rewrite Htag, Z.eqb_refl. cbn [negb].
    destruct (Z.gtb_spec (thread_count_ s) 0); [done|lia]. }
  split; [done|].
  intros σ u p [Hok _]%reachable_invariants Hp Hin. apply Hbusy.
  pose proof (count_inside_lookup _ _ _ Hp Hin). unfold count_ok in Hok. lia.
Qed.

(** C1 (as amended): in every reachable state the count is not negative
    (it is the number of threads between ThreadEnter and ThreadExit), and
    when a step makes a [SetCanceled(true)] return with the flag still
    set, the count is exactly 0 at that point. *)
Theorem thread_count_invariant σ :
  reachable σ →
  0 ≤ thread_count_ (obj σ)
  ∧ thread_count_ (obj σ) = count_inside (threads σ)
  ∧ (∀ t l σ',
       step t l σ = Some σ' →
       threads σ' !! t = Some (Returned (FSetCanceled true) 0) →
       canceled_ (obj σ') = true →
       thread_count_ (obj σ') = 0).
Proof.
  intros Hreach. destruct (reachable_invariants σ Hreach) as [Hok _].
  pose proof (count_inside_nonneg (threads σ)) as Hnonneg.
  unfold count_ok in Hok. split_and!; [lia|done|].
  intros t l σ' Hstep Hret Hcan.
  pose proof (step_count_ok _ _ _ _ Hok Hstep) as Hok'.
  pose proof (count_inside_nonneg (threads σ')) as Hnonneg'.
  destruct (step_inv _ _ _ _ Hstep) as (p & p' & Hp & Hs & Hw & _).
  destruct (thread_steps_fields _ _ _ _ _ Hs) as (_ & _ & _ & _ & _ & Hpred & _).
  destruct (woken_lookup _ _ _ _ Hw Hret) as [Hq|[? _]]; [|done].
  rewrite list_lookup_insert_eq in Hq by by eapply lookup_lt_Some.
  simplify_eq.
  pose proof (wait_pred_canceled _ (Hpred 0 eq_refl) Hcan).
  unfold count_ok in Hok'. lia.
Qed.

(** C8 (as amended): let thread [t] call [SetCanceled(true)] at any point
    of an execution, and let the execution go on with any steps of any
    threads other than calls of [SetCanceled].  If [t] is then back from
    that call and calls [SetCanceled(true)] again, this second call returns
    in its first step, without sleeping on [condition_]: it finds the count
    0 and does not touch the event fd.  The event fd is unsignaled after
    it when no other [SetCanceled] is still under way. *)
Theorem SetCanceled_twice σ0 t tr σ1 :
  reachable σ0 →
  calls_no_SetCanceled tr = true →
  run ((t, LCall (CSetCanceled true)) :: tr) σ0 = Some σ1 →
  threads σ1 !! t = Some (Returned (FSetCanceled true) 0) →
  ∃ σ2,
    step t (LCall (CSetCanceled true)) σ1 = Some σ2
    ∧ threads σ2 !! t = Some (Returned (FSetCanceled true) 0)
    ∧ thread_count_ (obj σ2) = 0
    ∧ event_counter (obj σ2) = event_counter (obj σ1)
    ∧ (quiet (threads σ1) = true → event_counter (obj σ2) = 0).
Proof.
  intros Hinv%reachable_invariants Hno Hrun Hret.
  assert (count_ok σ1 ∧ signal_ok σ1) as [_ Hsig].
  { apply (run_invariant (λ σ, count_ok σ ∧ signal_ok σ)
             ((t, LCall (CSetCanceled true)) :: tr) σ0 σ1); [|done..].
    intros u l σ σ' [H1 H2] Hs. split;
      [by eapply step_count_ok|by eapply step_signal_ok]. }
  destruct Hinv as [Hok _].
  cbn [run] in Hrun.
  destruct (step t (LCall (CSetCanceled true)) σ0) as [σ'|] eqn:Hfirst; [|done].
  cbn in Hrun.
  assert (cancel_window t σ1) as (_ & Hcan & Hmine).
  { apply (run_cancel_window t tr σ'); [|done|done].
    by apply (start_cancel_window t σ0). }
  pose proof (Hmine _ Hret eq_refl) as Hzero.
  unfold step. rewrite Hret. cbn.
  unfold SetCanceled_begin. cbn. rewrite Hzero. cbn.
  eexists. split; [done|]. cbn. split_and!; try done.
  - apply list_lookup_insert_eq. by eapply lookup_lt_Some.
  - intros Hquiet. apply Hsig. intros u p. by apply quiet_lookup.
Qed.

(** ** Further properties of the member functions *)

(** The [for] loop either stops at the first occurrence of the dispatcher's
    own address or runs through the whole batch. *)
Lemma dispatch_events_cases evs s :
  (∃ pre post, evs = pre ++ this :: post ∧ (this ∉ pre)
     ∧ dispatch_events evs s
       = (Some (neg_errno EBUSY), ThreadExit (dispatch_all pre s)))
  ∨ ((this ∉ evs) ∧ dispatch_events evs s = (None, dispatch_all evs s)).
Proof.
  destruct (first_occurrence evs) as [Hmiss|(pre & post & -> & Hpre)].
  - right. split; [done|]. by apply dispatch_events_miss.
  - left. exists pre, post. split_and!; [done..|]. by apply dispatch_events_hit.
Qed.

(** X1: on a canceled dispatcher the three dispatch entry points return
    -EBUSY at once: no wait is issued, no service is called and the object
    is left as it was. *)
Theorem entry_refused_when_canceled timeout w ws s :
  canceled_ s = true →
  ReceiveAndDispatch timeout w s = (-16, s)
  ∧ ReceiveAndDispatch0 w s = (-16, s)
  ∧ EnterDispatchLoop ws s = Some (-16, s).
Proof.
  intros Hc.
  unfold ReceiveAndDispatch0, ReceiveAndDispatch, EnterDispatchLoop, ThreadEnter.
  rewrite Hc. by cbn.
Qed.

(** X2: the status of a [ReceiveAndDispatch] that got past [ThreadEnter]
    depends on the wait result alone: the negated errno of a failed wait,
    -ETIMEDOUT for an empty batch, -EBUSY when the batch holds the
    dispatcher's own address anywhere, 0 otherwise. *)
Theorem ReceiveAndDispatch_status timeout w s :
  canceled_ s = false →
  (ReceiveAndDispatch timeout w s).1 = batch_status w.
Proof.
  intros Hc. unfold ReceiveAndDispatch, ThreadEnter. rewrite Hc.
  cbn [Z.ltb Z.compare].
  destruct w as [e|[|p evs]]; [done|done|].
  assert ((wait_count (WaitReady (p :: evs)) <=? 0) = false) as ->.
  { apply Z.leb_gt. cbn [wait_count length]. lia. }
  cbn [wait_events batch_status].
  destruct (dispatch_events_cases (p :: evs)
              (record (EvWait timeout)
                 (record EvEnter (set_thread_count (thread_count_ s + 1) s))))
    as [(pre & post & Hsplit & _ & ->)|[Hmiss ->]]; cbn [fst].
  - rewrite bool_decide_eq_true_2; [done|].
    rewrite Hsplit. apply elem_of_app. right. by left.
  - by rewrite bool_decide_eq_false_2.
Qed.

(** X3: when the batch is not empty and does not hold the dispatcher's own
    address, [ReceiveAndDispatch] returns 0 after calling the service of
    every event of the batch exactly once, in the order of the batch. *)
Theorem ReceiveAndDispatch_full_batch timeout evs s :
  canceled_ s = false → evs ≠ [] → this ∉ evs →
  (ReceiveAndDispatch timeout (WaitReady evs) s).1 = 0
  ∧ history (ReceiveAndDispatch timeout (WaitReady evs) s).2
    = history s ++ [EvEnter; EvWait timeout] ++ map EvDispatch evs ++ [EvExit].
Proof.
  intros Hc Hne Hmiss. unfold ReceiveAndDispatch, ThreadEnter. rewrite Hc.
  cbn [Z.ltb Z.compare].
  assert ((wait_count (WaitReady evs) <=? 0) = false) as ->.
  { apply Z.leb_gt. destruct evs; [done|]. cbn [wait_count length]. lia. }
  cbn [wait_events]. rewrite (dispatch_events_miss _ _ Hmiss). cbn [fst snd].
  split; [done|].
  change (history (ThreadExit ?x)) with (history x ++ [EvExit]).
  destruct (dispatch_all_fields evs
              (record (EvWait timeout)
                 (record EvEnter (set_thread_count (thread_count_ s + 1) s))))
    as (_ & _ & _ & _ & _ & ->).
  cbn. by rewrite <- !app_assoc.
Qed.

(** X4: [ReceiveAndDispatch] never touches the registry, the epoll
    interest list, the event fd, the canceled flag or the handles,
    whatever its wait gives. *)
Theorem ReceiveAndDispatch_frame timeout w s :
  services_ (ReceiveAndDispatch timeout w s).2 = services_ s
  ∧ interest (ReceiveAndDispatch timeout w s).2 = interest s
  ∧ event_counter (ReceiveAndDispatch timeout w s).2 = event_counter s
  ∧ canceled_ (ReceiveAndDispatch timeout w s).2 = canceled_ s
  ∧ event_fd_ (ReceiveAndDispatch timeout w s).2 = event_fd_ s
  ∧ epoll_fd_ (ReceiveAndDispatch timeout w s).2 = epoll_fd_ s.
Proof.
  assert (∀ evs s0,
            services_ (dispatch_all evs s0) = services_ s0
            ∧ interest (dispatch_all evs s0) = interest s0
            ∧ event_counter (dispatch_all evs s0) = event_counter s0
            ∧ canceled_ (dispatch_all evs s0) = canceled_ s0
            ∧ event_fd_ (dispatch_all evs s0) = event_fd_ s0
            ∧ epoll_fd_ (dispatch_all evs s0) = epoll_fd_ s0) as Hall.
  { induction evs as [|p evs IH]; intros s0; [done|].
    change (dispatch_all (p :: evs) s0)
      with (dispatch_all evs (Service_ReceiveAndDispatch p s0)).
    destruct (IH (Service_ReceiveAndDispatch p s0))
      as (-> & -> & -> & -> & -> & ->). done. }
  unfold ReceiveAndDispatch, ThreadEnter.
  destruct (canceled_ s) eqn:Hc; [cbn; by rewrite ?Hc|].
  cbn [Z.ltb Z.compare].
  destruct (wait_count w <=? 0); [cbn; by rewrite ?Hc|].
  destruct (dispatch_events_cases (wait_events w)
              (record (EvWait timeout)
                 (record EvEnter (set_thread_count (thread_count_ s + 1) s))))
    as [(pre & post & _ & _ & ->)|[_ ->]]; cbn [snd];
    match goal with
    | |- context [dispatch_all ?l ?x] =>
        destruct (Hall l x) as (H1 & H2 & H3 & H4 & H5 & H6)
    end;
    cbn [ThreadExit record set_thread_count services_ interest event_counter
         canceled_ event_fd_ epoll_fd_];
    rewrite H1, H2, H3, H4, H5, H6; cbn; by rewrite ?Hc.
Qed.

Lemma occurrences_snoc_same e h :
  occurrences e (h ++ [e]) = S (occurrences e h).
Proof.
  rewrite occurrences_app. unfold occurrences.
  rewrite filter_cons, filter_nil. destruct (decide (e = e)); [cbn; lia|done].
Qed.

Lemma occurrences_snoc_other e h x :
  x ≠ e → occurrences e (h ++ [x]) = occurrences e h.
Proof.
  intros Hne. rewrite occurrences_app. unfold occurrences.
  rewrite filter_cons, filter_nil. destruct (decide (x = e)); [done|cbn; lia].
Qed.

Ltac count_events :=
  rewrite ?last_snoc;
  repeat first [ rewrite occurrences_snoc_same
               | rewrite occurrences_snoc_other by done ].

(** What the [for] loop does to the count and to the numbers of enters and
    exits. *)
Lemma dispatch_events_effect evs s :
  occurrences EvEnter (history (dispatch_events evs s).2)
  = occurrences EvEnter (history s)
  ∧ match (dispatch_events evs s).1 with
    | Some r =>
        r = -16
        ∧ thread_count_ (dispatch_events evs s).2 = thread_count_ s - 1
        ∧ occurrences EvExit (history (dispatch_events evs s).2)
          = S (occurrences EvExit (history s))
        ∧ last (history (dispatch_events evs s).2) = Some EvExit
    | None =>
        thread_count_ (dispatch_events evs s).2 = thread_count_ s
        ∧ occurrences EvExit (history (dispatch_events evs s).2)
          = occurrences EvExit (history s)
    end
  ∧ canceled_ (dispatch_events evs s).2 = canceled_ s.
Proof.
  revert s. induction evs as [|p evs IH]; intros s; cbn [dispatch_events].
  - done.
  - destruct (p =? this).
    + cbn [fst snd].
      change (history (ThreadExit s)) with (history s ++ [EvExit]).
      count_events. done.
    + destruct (IH (Service_ReceiveAndDispatch p s)) as (H1 & H2 & H3).
      rewrite H1, H3.
      change (history (Service_ReceiveAndDispatch p s))
        with (history s ++ [EvDispatch p]) in *.
      rewrite !occurrences_snoc_other in H2 by done.
      count_events. done.
Qed.

Lemma occurrences_single_same e : occurrences e [e] = 1%nat.
Proof. apply (occurrences_snoc_same e []). Qed.

Lemma occurrences_single_other e x : x ≠ e → occurrences e [x] = 0%nat.
Proof. apply (occurrences_snoc_other e [] x). Qed.

(** A thread in the loop of [EnterDispatchLoop], whatever the others do to
    the object between its steps: when it gets to return, its steps have
    taken one off the count, by the [ThreadExit] that is its last step. *)
Lemma loop_run_among steps p (seen : Prop) f ret d h :
  match p with
  | Loop_test | Loop_wait | Loop_events _ => True
  | Exiting ViaEnterDispatchLoop r => r ≤ 0 ∧ (r = 0 → seen)
  | _ => False
  end →
  calls_nothing steps = true →
  run_among steps p = Some (Returned f ret, d, h) →
  f = FEnterDispatchLoop ∧ ret ≤ 0 ∧ d = -1
  ∧ occurrences EvEnter h = 0%nat ∧ occurrences EvExit h = 1%nat
  ∧ last h = Some EvExit
  ∧ (ret = 0 → seen ∨ ∃ s, (LStep, s) ∈ steps ∧ canceled_ s = true).
Proof.
  revert p seen d h.
  induction steps as [|[l s] rest IH]; intros p seen d h Hp Hno Hrun.
  { cbn in Hrun. simplify_eq. done. }
  cbn in Hno. apply andb_true_iff in Hno as [Hl Hno].
  assert (∀ p1 (seen1 : Prop) extra c,
            match p1 with
            | Loop_test | Loop_wait | Loop_events _ => True
            | Exiting ViaEnterDispatchLoop r => r ≤ 0 ∧ (r = 0 → seen1)
            | _ => False
            end →
            (seen1 →
             seen ∨ ∃ s0, (LStep, s0) ∈ (l, s) :: rest ∧ canceled_ s0 = true) →
            occurrences EvEnter extra = 0%nat →
            occurrences EvExit extra = 0%nat →
            c = 0 →
            run_among rest p1
            ≫= (λ '(p2, d', h'), Some (p2, c + d', extra ++ h'))
            = Some (Returned f ret, d, h) →
            f = FEnterDispatchLoop ∧ ret ≤ 0 ∧ d = -1
            ∧ occurrences EvEnter h = 0%nat ∧ occurrences EvExit h = 1%nat
            ∧ last h = Some EvExit
            ∧ (ret = 0 →
               seen ∨ ∃ s0, (LStep, s0) ∈ (l, s) :: rest ∧ canceled_ s0 = true))
    as Hnext.
  { intros p1 seen1 extra c Hp1 Hseen Henter Hexit -> Hrest.
    destruct (run_among rest p1) as [[[p2 d2] h2]|] eqn:Hrun1; [|done].
    cbn in Hrest. simplify_eq.
    destruct (IH p1 seen1 d2 h2 Hp1 Hno Hrun1)
      as (-> & Hret & -> & He & Hx & Hlast & Hzero).
    rewrite !occurrences_app, Henter, Hexit, He, Hx, last_app, Hlast.
    split_and!; try done.
    intros Hret0. destruct (Hzero Hret0) as [Hs1|(s0 & Hin & Hc)]; [auto|].
    right. exists s0. split; [|done]. by apply list_elem_of_further. }
  cbn [run_among] in Hrun.
  destruct p as [| | | | |evs|[|] r| | |]; try done; destruct l; try done;
    cbn -[Pos.eqb] in Hrun.
  - (* the loop test *)
    rewrite drop_all in Hrun. unfold IsCanceled in Hrun.
    destruct (canceled_ s) eqn:Hc.
    + apply (Hnext (Exiting ViaEnterDispatchLoop 0) True []
               (thread_count_ s - thread_count_ s));
        [done| |done|done|lia|exact Hrun].
      intros _. right. exists s. split; [apply list_elem_of_here|done].
    + apply (Hnext Loop_wait False [] (thread_count_ s - thread_count_ s));
        [done|done|done|done|lia|exact Hrun].
  - (* the wait *)
    destruct (epoll_wait (-1) r s) as [w|]; [|done]. cbn -[Pos.eqb] in Hrun.
    rewrite drop_app_length in Hrun.
    destruct ((wait_count w <? 0) && negb (Pos.eqb (wait_errno w) EINTR)).
    + apply (Hnext (Exiting ViaEnterDispatchLoop (neg_errno (wait_errno w)))
               False [EvWait (-1)] (thread_count_ s - thread_count_ s));
        [|done|done|done|lia|exact Hrun].
      unfold neg_errno. split; lia.
    + apply (Hnext (Loop_events (wait_events w)) False [EvWait (-1)]
               (thread_count_ s - thread_count_ s));
        [done|done|done|done|lia|exact Hrun].
  - (* one event of the batch *)
    destruct evs as [|q evs]; cbn in Hrun.
    + rewrite drop_all in Hrun.
      apply (Hnext Loop_test False [] (thread_count_ s - thread_count_ s));
        [done|done|done|done|lia|exact Hrun].
    + destruct (q =? this); cbn in Hrun.
      * rewrite drop_all in Hrun.
        apply (Hnext (Exiting ViaEnterDispatchLoop (neg_errno EBUSY)) False []
                 (thread_count_ s - thread_count_ s));
          [|done|done|done|lia|exact Hrun].
        unfold neg_errno. split; lia.
      * rewrite drop_app_length in Hrun.
        apply (Hnext (Loop_events evs) False [EvDispatch q]
                 (thread_count_ s - thread_count_ s));
          [done|done|done|done|lia|exact Hrun].
  - (* ThreadExit *)
    rewrite drop_app_length in Hrun. destruct Hp as [Hr Hseen].
    destruct rest as [|[l' s'] rest'].
    + cbn in Hrun. simplify_eq.
      split_and!; try done; [lia|].
      intros Hzero. left. by apply Hseen.
    + cbn in Hno. apply andb_true_iff in Hno as [Hl' _].
      destruct l'; done.
Qed.

(** X5: a thread that calls [EnterDispatchLoop], gets past [ThreadEnter]
    and returns has run [ThreadExit] exactly once, as the last thing it
    did, on every way out of the loop: a failed wait, the control signal,
    and the loop test that finds the flag set.  This holds whatever the
    other threads do to the object between its steps.  What its own steps
    did to the count adds up to 0, it never returns a positive status, and
    it returns 0 only after one of its loop tests has seen the flag set. *)
Theorem EnterDispatchLoop_balanced p0 s0 steps f ret d h :
  canceled_ s0 = false →
  calls_nothing steps = true →
  run_among ((LCall CEnterDispatchLoop, s0) :: steps) p0
  = Some (Returned f ret, d, h) →
  f = FEnterDispatchLoop
  ∧ ret ≤ 0
  ∧ d = 0
  ∧ occurrences EvEnter h = 1%nat
  ∧ occurrences EvExit h = 1%nat
  ∧ head h = Some EvEnter
  ∧ last h = Some EvExit
  ∧ (ret = 0 → ∃ s, (LStep, s) ∈ steps ∧ canceled_ s = true).
Proof.
  intros Hc Hno Hrun. cbn [run_among] in Hrun.
  assert (thread_step (LCall CEnterDispatchLoop) p0 s0
          = Some (Loop_test,
                  record EvEnter (set_thread_count (thread_count_ s0 + 1) s0))
          ∨ thread_step (LCall CEnterDispatchLoop) p0 s0 = None) as [Hs|Hs].
  { destruct p0; cbn; auto; unfold enter, ThreadEnter; rewrite Hc; auto. }
  2: { by rewrite Hs in Hrun. }
  rewrite Hs in Hrun. cbn in Hrun. rewrite drop_app_length in Hrun.
  destruct (run_among steps Loop_test) as [[[p2 d2] h2]|] eqn:Hrun1; [|done].
  cbn in Hrun. simplify_eq.
  destruct (loop_run_among steps Loop_test False _ _ _ _ I Hno Hrun1)
    as (-> & Hret & -> & He & Hx & Hlast & Hzero).
  change (EvEnter :: h2) with ([EvEnter] ++ h2).
  rewrite !occurrences_app, He, Hx, last_app, Hlast.
  rewrite occurrences_single_same, occurrences_single_other by done.
  split_and!; try done; [lia|].
  intros Hret0. by destruct (Hzero Hret0).
Qed.



(** X6: a dispatch loop that is not canceled returns exactly when one of
    its waits fails with an errno other than EINTR or reports the
    dispatcher's own address; until then the thread stays in the loop. *)
Theorem dispatch_loop_returns_iff ws s :
  canceled_ s = false →
  is_Some (dispatch_loop ws s) ↔ existsb ends_loop ws = true.
Proof.
  revert s. induction ws as [|w ws IH]; intros s Hc; cbn [dispatch_loop existsb];
    unfold IsCanceled; rewrite Hc.
  - split; [by intros [? [=]]|done].
  - destruct w as [e|evs]; cbn [wait_count wait_events wait_errno ends_loop].
    + cbn [Z.ltb Z.compare andb]. destruct (negb (Pos.eqb e EINTR)).
      * split; [done|]. intros _. by eexists.
      * cbn [orb dispatch_events]. by apply IH.
    + assert ((Z.of_nat (length evs) <? 0) = false) as ->
        by (apply Z.ltb_ge; lia).
      cbn [andb].
      pose proof (dispatch_events_effect evs (record (EvWait (-1)) s))
        as (_ & _ & H3).
      destruct (dispatch_events_cases evs (record (EvWait (-1)) s))
        as [(pre & post & Hsplit & _ & Hev)|[Hmiss Hev]];
        rewrite Hev in *; cbn [snd] in H3.
      * rewrite bool_decide_eq_true_2.
        { split; [done|]. intros _. by eexists. }
        rewrite Hsplit. apply elem_of_app. right. by left.
      * rewrite bool_decide_eq_false_2 by done. cbn [orb].
        apply IH. by rewrite H3.
Qed.

(** X7: a service of another kind is refused with -EINVAL by both registry
    functions before anything else is looked at: also while threads are
    active (not -EBUSY) and whatever [epoll_ctl] would have said; nothing
    changes. *)
Theorem wrong_kind_rejected fault service s :
  ipc_tag service ≠ kIpcTag →
  AddService fault service s = (-22, s)
  ∧ RemoveService fault service s = (-22, s).
Proof.
  intros Htag%Z.eqb_neq. unfold AddService, RemoveService.
  by rewrite Htag.
Qed.

Lemma AddService_success fault service s s1 :
  AddService fault service s = (0, s1) →
  ipc_tag service = kIpcTag
  ∧ interest s !! endpoint_epoll_fd service = None
  ∧ s1 = set_registry (services_ s ++ [service])
           (<[endpoint_epoll_fd service := service]> (interest s)) s.
Proof.
  unfold AddService, epoll_ctl.
  destruct (Z.eqb_spec (ipc_tag service) kIpcTag) as [Htag|_]; cbn [negb];
    [|by intros [=]].
  destruct fault as [e|]; [by intros [=]|].
  destruct (interest s !! endpoint_epoll_fd service); [by intros [=]|].
  by intros [= <-].
Qed.

Lemma RemoveService_success fault service s s1 :
  RemoveService fault service s = (0, s1) →
  ipc_tag service = kIpcTag
  ∧ thread_count_ s ≤ 0
  ∧ is_Some (interest s !! endpoint_epoll_fd service)
  ∧ s1 = set_registry (list_remove service (services_ s))
           (delete (endpoint_epoll_fd service) (interest s)) s.
Proof.
  unfold RemoveService, epoll_ctl.
  destruct (Z.eqb_spec (ipc_tag service) kIpcTag) as [Htag|_]; cbn [negb];
    [|by intros [=]].
  destruct (Z.gtb_spec (thread_count_ s) 0); [by intros [=]|].
  destruct fault as [e|]; [by intros [=]|].
  destruct (interest s !! endpoint_epoll_fd service); [|by intros [=]].
  intros [= <-]. split_and!; [done|lia|by eexists|done].
Qed.

(** X8: a service cannot be registered twice nor removed twice: after an
    [AddService] that returned 0, another [AddService] of the same service
    returns -EEXIST, and after a [RemoveService] that returned 0, another
    [RemoveService] of it returns -ENOENT; the second call changes
    nothing. *)
Theorem registration_is_exclusive fault service s s1 :
  (AddService fault service s = (0, s1) →
   AddService None service s1 = (-17, s1))
  ∧ (RemoveService fault service s = (0, s1) →
     RemoveService None service s1 = (-2, s1)).
Proof.
  split.
  - intros (Htag & _ & ->)%AddService_success.
    unfold AddService, epoll_ctl. rewrite Htag, Z.eqb_refl. cbn [negb interest set_registry].
    by rewrite lookup_insert_eq.
  - intros (Htag & Hcount & _ & ->)%RemoveService_success.
    unfold RemoveService, epoll_ctl. rewrite Htag, Z.eqb_refl.
    cbn [negb interest set_registry thread_count_].
    destruct (Z.gtb_spec (thread_count_ s) 0); [lia|].
    by rewrite lookup_delete_eq.
Qed.

(** X9: registering a service that is not in the registry and removing it
    again, with no thread active, gives back the dispatcher as it was:
    same registry, same epoll interest list. *)
Theorem add_then_remove_restores service s s1 :
  service ∉ services_ s →
  thread_count_ s ≤ 0 →
  AddService None service s = (0, s1) →
  RemoveService None service s1 = (0, s).
Proof.
  intros Hnew Hcount (Htag & Hfree & ->)%AddService_success.
  unfold RemoveService, epoll_ctl. rewrite Htag, Z.eqb_refl.
  cbn [negb interest set_registry thread_count_ services_].
  destruct (Z.gtb_spec (thread_count_ s) 0); [lia|].
  rewrite lookup_insert_eq, delete_insert_eq, (delete_id _ _ Hfree).
  assert (list_remove service (services_ s ++ [service]) = services_ s) as ->.
  { unfold list_remove. rewrite filter_app, filter_cons, filter_nil.
    destruct (decide (service ≠ service)); [done|].
    rewrite app_nil_r. clear -Hnew.
    induction (services_ s) as [|q l IH]; [done|].
    apply not_elem_of_cons in Hnew as [Hq Hl].
    rewrite filter_cons. destruct (decide (q ≠ service)); [|done].
    by rewrite IH. }
  by destruct s.
Qed.

(** ** Further properties of the threads *)

Lemma history_grows_not (h : list event) e : h ≠ h ++ [e].
Proof.
  intros Heq. apply (f_equal length) in Heq. rewrite length_app in Heq.
  cbn in Heq. lia.
Qed.

Lemma pending_inside p q : q ∈ pending p → inside p = true.
Proof. destruct p; cbn; try done; by intros ?%elem_of_nil. Qed.

Lemma mapM_lookup_registered (m : gmap Z Z) fds evs q :
  mapM (λ fd, m !! fd) fds = Some evs → q ∈ evs →
  ∃ fd, fd ∈ fds ∧ m !! fd = Some q.
Proof.
  intros Hm%mapM_Some Hq. revert Hq.
  induction Hm as [|fd p fds evs Hfd _ IH]; [by intros ?%elem_of_nil|].
  intros [->|Hq]%elem_of_cons.
  - exists fd. split; [by left|done].
  - destruct (IH Hq) as (fd' & ? & ?). exists fd'. split; [by right|done].
Qed.

(** The events a wait hands out are registered and ready. *)
Lemma epoll_wait_events timeout r s w q :
  epoll_wait timeout r s = Some w → q ∈ wait_events w →
  ∃ fd, interest s !! fd = Some q ∧ fd_ready s fd = true.
Proof.
  unfold epoll_wait. destruct r as [e|[|fd0 fds]].
  - intros [= <-]. by intros ?%elem_of_nil.
  - case_match; [|done]. intros [= <-]. by intros ?%elem_of_nil.
  - case_match eqn:Hok; [|done].
    apply andb_true_iff in Hok as [_ Hready].
    destruct (mapM _ _) as [evs|] eqn:Hm; [|done]. intros [= <-] Hq.
    destruct (mapM_lookup_registered _ _ _ _ Hm Hq) as (fd & Hfd & Hreg).
    exists fd. split; [done|].
    rewrite forallb_forall in Hready. apply Hready.
    by apply list_elem_of_In.
Qed.

Lemma apply_op_handles o s :
  event_fd_ (apply_op o s).2 = event_fd_ s
  ∧ epoll_fd_ (apply_op o s).2 = epoll_fd_ s
  ∧ thread_count_ (apply_op o s).2 = thread_count_ s.
Proof.
  destruct o as [service fault|service fault]; cbn;
    unfold AddService, RemoveService;
    repeat (case_match; simplify_eq; cbn; try done).
Qed.

(** What one step of a thread does to the registry and to the events the
    thread holds. *)
Lemma thread_steps_registry l p s p' s' :
  thread_steps l p s p' s' →
  event_fd_ s' = event_fd_ s
  ∧ epoll_fd_ s' = epoll_fd_ s
  ∧ ((services_ s' = services_ s ∧ interest s' = interest s)
     ∨ (∃ o, s' = (apply_op o s).2 ∧ pending p' = []))
  ∧ (∀ q, q ∈ pending p' →
          q ∈ pending p ∨ ∃ fd, interest s !! fd = Some q).
Proof.
  assert (∀ c s0,
            event_fd_ (start_call c s0).2 = event_fd_ s0
            ∧ epoll_fd_ (start_call c s0).2 = epoll_fd_ s0
            ∧ ((services_ (start_call c s0).2 = services_ s0
                ∧ interest (start_call c s0).2 = interest s0)
               ∨ (∃ o, (start_call c s0).2 = (apply_op o s0).2
                       ∧ pending (start_call c s0).1 = []))
            ∧ pending (start_call c s0).1 = []) as Hcall.
  { intros [service fault|service fault| |timeout| |cancel] s0.
    - destruct (apply_op_handles (OpAdd service fault) s0) as (H1 & H2 & _).
      cbn [start_call apply_op] in *.
      destruct (AddService fault service s0) as [r s1] eqn:Hadd. cbn in *.
      split_and!; [done|done| |done]. right. exists (OpAdd service fault).
      cbn [apply_op]. by rewrite Hadd.
    - destruct (apply_op_handles (OpRemove service fault) s0) as (H1 & H2 & _).
      cbn [start_call apply_op] in *.
      destruct (RemoveService fault service s0) as [r s1] eqn:Hrem. cbn in *.
      split_and!; [done|done| |done]. right. exists (OpRemove service fault).
      cbn [apply_op]. by rewrite Hrem.
    - cbn. unfold enter, ThreadEnter.
      destruct (canceled_ s0); cbn; split_and!; auto.
    - cbn. unfold enter, ThreadEnter.
      destruct (canceled_ s0); cbn; split_and!; auto.
    - cbn. unfold enter, ThreadEnter.
      destruct (canceled_ s0); cbn; split_and!; auto.
    - cbn. unfold SetCanceled_begin. cbn.
      destruct (cancel && (thread_count_ s0 >? 0)); cbn; split_and!; auto. }
  assert (∀ f again after evs s0,
            (∀ l, pending (again l) = l) → pending after = [] →
            event_fd_ (event_step f again after evs s0).2 = event_fd_ s0
            ∧ epoll_fd_ (event_step f again after evs s0).2 = epoll_fd_ s0
            ∧ services_ (event_step f again after evs s0).2 = services_ s0
            ∧ interest (event_step f again after evs s0).2 = interest s0
            ∧ ∀ q, q ∈ pending (event_step f again after evs s0).1 → q ∈ evs)
    as Hevent.
  { intros f again after evs s0 Hagain Hafter. unfold event_step.
    destruct evs as [|q rest]; cbn; [by rewrite Hafter|].
    destruct (q =? this); cbn; split_and!; try done.
    - by intros ? ?%elem_of_nil.
    - intros q0 Hq0. rewrite Hagain in Hq0. by right. }
  intros [c s0|f ret c s0|timeout r w s0 Hw|evs s0|s0|r w s0 Hw|evs s0
         |f ret target s0|s0|s0 s1 Hr|s0 Hr].
  - destruct (Hcall c s0) as (? & ? & ? & Hp). split_and!; try done.
    rewrite Hp. by intros ? ?%elem_of_nil.
  - destruct (Hcall c s0) as (? & ? & ? & Hp). split_and!; try done.
    rewrite Hp. by intros ? ?%elem_of_nil.
  - split_and!; [done|done|by left|]. intros q Hq. right.
    assert (q ∈ wait_events w) as Hq'.
    { destruct (wait_count w <=? 0); [by apply elem_of_nil in Hq|done]. }
    destruct (epoll_wait_events _ _ _ _ _ Hw Hq') as (fd & ? & _). by exists fd.
  - destruct (Hevent ViaReceiveAndDispatch RD_events
                (Exiting ViaReceiveAndDispatch 0) evs s0)
      as (? & ? & ? & ? & Hp); [done..|].
    split_and!; [done|done|by left|]. intros q Hq. left. by apply Hp.
  - split_and!; [done|done|by left|]. intros q.
    destruct (IsCanceled s0); by intros ?%elem_of_nil.
  - split_and!; [done|done|by left|]. intros q Hq. right.
    assert (q ∈ wait_events w) as Hq'.
    { destruct ((wait_count w <? 0) && negb (Pos.eqb (wait_errno w) EINTR));
        [by apply elem_of_nil in Hq|done]. }
    destruct (epoll_wait_events _ _ _ _ _ Hw Hq') as (fd & ? & _). by exists fd.
  - destruct (Hevent ViaEnterDispatchLoop Loop_events Loop_test evs s0)
      as (? & ? & ? & ? & Hp); [done..|].
    split_and!; [done|done|by left|]. intros q Hq. left. by apply Hp.
  - split_and!; [done|done|by left|]. by intros ? ?%elem_of_nil.
  - split_and!; [done|done|by left|]. by intros ? ?%elem_of_nil.
  - unfold SetCanceled_resume in Hr. destruct (wait_pred s0); [|done].
    injection Hr as <-. split_and!; [done|done|by left|].
    by intros ? ?%elem_of_nil.
  - split_and!; [done|done|by left|]. by intros ? ?%elem_of_nil.
Qed.

Lemma start_call_history c s :
  history (start_call c s).2 = history s
  ∨ history (start_call c s).2 = history s ++ [EvEnter]
  ∨ history (start_call c s).2 = history s ++ [EvExit].
Proof.
  destruct c as [service fault|service fault| |timeout| |cancel]; cbn;
    unfold AddService, RemoveService, enter, ThreadEnter, SetCanceled_begin;
    repeat (case_match; simplify_eq; cbn; auto).
Qed.

Lemma SetCanceled_resume_history s s' :
  SetCanceled_resume s = Some s' → history s' = history s.
Proof.
  unfold SetCanceled_resume. destruct (wait_pred s); [|done]. by intros [= <-].
Qed.

Lemma apply_op_keeps_registration o s fd q :
  interest s !! fd = Some q →
  0 < thread_count_ s ∨ (∃ service fault, o = OpAdd service fault) →
  interest (apply_op o s).2 !! fd = Some q.
Proof.
  intros Hfd Hwhy. destruct o as [service fault|service fault]; cbn.
  - unfold AddService, epoll_ctl.
    repeat (case_match; simplify_eq; cbn; try done).
    rewrite lookup_insert_ne; [done|]. congruence.
  - destruct Hwhy as [Hcount|(? & ? & [=])]. unfold RemoveService.
    destruct (negb (ipc_tag service =? kIpcTag)); [done|].
    destruct (Z.gtb_spec (thread_count_ s) 0); [done|lia].
Qed.

Lemma apply_op_control_signal o s :
  (∀ q, endpoint_epoll_fd q ≠ event_fd_ s) →
  control_signal_registered s → control_signal_registered (apply_op o s).2.
Proof.
  unfold control_signal_registered. intros Hfd Hreg.
  destruct (apply_op_handles o s) as (-> & _).
  destruct o as [service fault|service fault]; cbn;
    unfold AddService, RemoveService, epoll_ctl;
    repeat (case_match; simplify_eq; cbn; try done).
  - by rewrite lookup_insert_ne.
  - by rewrite lookup_delete_ne.
Qed.

Lemma apply_op_NoDup o s :
  in_sync s → NoDup (services_ s) → NoDup (services_ (apply_op o s).2).
Proof.
  intros [Hreg _] Hnd. destruct o as [service fault|service fault]; cbn.
  - destruct (AddService fault service s) as [r s1] eqn:Hadd.
    destruct (decide (r = 0)) as [->|Hfail].
    + apply AddService_success in Hadd as (_ & Hfree & ->). cbn.
      apply NoDup_app. split_and!; [done| |apply NoDup_singleton].
      intros q Hq ->%list_elem_of_singleton. apply Hreg in Hq. congruence.
    + pose proof (apply_op_failure (OpAdd service fault) s) as Hsame.
      cbn in Hsame. rewrite Hadd in Hsame. cbn in *. by rewrite Hsame.
  - destruct (RemoveService fault service s) as [r s1] eqn:Hrem.
    destruct (decide (r = 0)) as [->|Hfail].
    + apply RemoveService_success in Hrem as (_ & _ & _ & ->). cbn.
      by apply NoDup_filter.
    + pose proof (apply_op_failure (OpRemove service fault) s) as Hsame.
      cbn in Hsame. rewrite Hadd in Hsame || rewrite Hrem in Hsame.
      cbn in *. by rewrite Hsame.
Qed.

Lemma step_registry_ok t l σ σ' :
  (∀ p q, endpoint_epoll_fd p = endpoint_epoll_fd q → p = q) →
  (∀ q, endpoint_epoll_fd q ≠ event_fd_ (obj σ)) →
  registry_ok σ → step t l σ = Some σ' →
  registry_ok σ' ∧ event_fd_ (obj σ') = event_fd_ (obj σ).
Proof.
  intros Hinj Hfd (Hsync & Hsig & Hnd & Hpend & Hok) Hstep.
  pose proof (step_count_ok _ _ _ _ Hok Hstep) as Hok'.
  destruct (step_inv _ _ _ _ Hstep) as (p & p' & Hp & Hs & Hw & _).
  destruct (thread_steps_registry _ _ _ _ _ Hs) as (Hefd & _ & Hreg & Hpp).
  assert (∀ u pu q, threads σ' !! u = Some pu → q ∈ pending pu →
            ∃ fd, interest (obj σ) !! fd = Some q
                  ∧ (u ≠ t → threads σ !! u = Some pu)) as Hold.
  { intros u pu q Hu Hq.
    destruct (woken_lookup _ _ _ _ Hw Hu) as [Hu1|[-> _]];
      [|by apply elem_of_nil in Hq].
    destruct (insert_lookup_cases _ _ _ _ _ _ Hp Hu1) as [[-> ->]|[Hne Hu2]].
    - destruct (Hpp q Hq) as [Hq1|[fd Hfd1]].
      + destruct (Hpend t p q Hp Hq1) as [fd Hfd1]. by exists fd.
      + by exists fd.
    - destruct (Hpend u pu q Hu2 Hq) as [fd Hfd1]. by exists fd. }
  destruct Hreg as [[Hsv Hint]|(o & Hobj & Hnone)].
  - split; [|done]. unfold registry_ok. split_and!.
    + unfold in_sync. rewrite Hsv, Hint, Hefd. exact Hsync.
    + unfold control_signal_registered. rewrite Hint, Hefd. exact Hsig.
    + by rewrite Hsv.
    + intros u pu q Hu Hq. destruct (Hold u pu q Hu Hq) as (fd & ? & _).
      exists fd. by rewrite Hint.
    + done.
  - split; [|done]. unfold registry_ok. rewrite Hobj. split_and!.
    + by apply apply_op_in_sync.
    + by apply apply_op_control_signal.
    + by apply apply_op_NoDup.
    + intros u pu q Hu Hq. destruct (Hold u pu q Hu Hq) as (fd & Hfd1 & Hsame).
      exists fd. rewrite Hobj.
      apply apply_op_keeps_registration; [done|]. left.
      destruct (decide (u = t)) as [->|Hne].
      * destruct (woken_lookup _ _ _ _ Hw Hu) as [Hu1|[-> _]];
          [|by apply elem_of_nil in Hq].
        rewrite list_lookup_insert_eq in Hu1 by by eapply lookup_lt_Some.
        simplify_eq. rewrite Hnone in Hq. by apply elem_of_nil in Hq.
      * pose proof (count_inside_lookup _ _ _ (Hsame Hne) (pending_inside _ _ Hq)).
        unfold count_ok in Hok. lia.
    + done.
Qed.

Lemma run_registry_ok tr σ0 σ :
  (∀ p q, endpoint_epoll_fd p = endpoint_epoll_fd q → p = q) →
  (∀ q, endpoint_epoll_fd q ≠ event_fd_ (obj σ0)) →
  registry_ok σ0 → run tr σ0 = Some σ →
  registry_ok σ ∧ event_fd_ (obj σ) = event_fd_ (obj σ0).
Proof.
  intros Hinj. revert σ0. induction tr as [|[t l] tr IH]; intros σ0 Hfd H0 Hrun.
  - cbn in Hrun. by simplify_eq.
  - cbn in Hrun. destruct (step t l σ0) as [σ1|] eqn:Hs; [|done]. cbn in Hrun.
    destruct (step_registry_ok _ _ _ _ Hinj Hfd H0 Hs) as [H1 Hefd].
    destruct (IH σ1) as [H2 Hefd2]; [by rewrite Hefd|done|done|].
    split; [done|congruence].
Qed.

Lemma init_obj r_eventfd r_epoll_create n σ0 :
  init r_eventfd r_epoll_create n = Some σ0 →
  σ0 = mkSystem (mkDispatcher r_eventfd r_epoll_create [] 0 false 0
                   {[r_eventfd := this]} [])
                (replicate n Idle)
  ∧ 0 ≤ r_eventfd ∧ 0 ≤ r_epoll_create.
Proof.
  unfold init, Create, ctor, handle_valid.
  cbn [epoll_ctl event_fd_ epoll_fd_ interest].
  destruct (0 <=? r_eventfd) eqn:E1; cbn [negb event_fd_ epoll_fd_];
    rewrite ?E1; [|by rewrite orb_true_r].
  destruct (0 <=? r_epoll_create) eqn:E2; cbn [negb event_fd_ epoll_fd_];
    rewrite ?E1, ?E2; [|done].
  rewrite lookup_empty. cbn. rewrite E1, E2. cbn.
  intros [= <-]. split_and!; [done|by apply Z.leb_le..].
Qed.

Lemma run_handles tr σ0 σ :
  run tr σ0 = Some σ →
  event_fd_ (obj σ) = event_fd_ (obj σ0)
  ∧ epoll_fd_ (obj σ) = epoll_fd_ (obj σ0).
Proof.
  apply (run_invariant
           (λ σ1, event_fd_ (obj σ1) = event_fd_ (obj σ0)
                  ∧ epoll_fd_ (obj σ1) = epoll_fd_ (obj σ0))); [|done].
  intros t l σ1 σ2 [H1 H2] Hs.
  destruct (step_inv _ _ _ _ Hs) as (p & p' & _ & Hts & _).
  destruct (thread_steps_registry _ _ _ _ _ Hts) as (-> & -> & _). done.
Qed.

Lemma init_registry_ok r_eventfd r_epoll_create n σ0 :
  init r_eventfd r_epoll_create n = Some σ0 → registry_ok σ0.
Proof.
  intros (-> & _ & _)%init_obj.
  unfold registry_ok, in_sync, control_signal_registered, pending_ok, count_ok.
  cbn. split_and!.
  - by intros p ?%elem_of_nil.
  - intros fd p Hfd Hne. by rewrite lookup_singleton_ne in Hfd.
  - by rewrite lookup_singleton_eq.
  - apply NoDup_nil_2.
  - intros t p q [-> _]%lookup_replicate. by intros ?%elem_of_nil.
  - by rewrite count_inside_replicate.
Qed.

Lemma reachable_registry_ok σ :
  (∀ p q, endpoint_epoll_fd p = endpoint_epoll_fd q → p = q) →
  (∀ q, endpoint_epoll_fd q ≠ event_fd_ (obj σ)) →
  reachable σ → registry_ok σ.
Proof.
  intros Hinj Hfd (r1 & r2 & n & σ0 & tr & Hinit & Hrun).
  destruct (run_handles _ _ _ Hrun) as [Hefd _]. rewrite Hefd in Hfd.
  apply (run_registry_ok tr σ0 σ Hinj Hfd); [|done].
  by eapply init_registry_ok.
Qed.

(** X10: as long as distinct services have distinct endpoint descriptors
    and none of them is the event fd, registry and epoll interest list are
    in lockstep in every reachable state, after successful calls as well as
    failed ones and whatever the threads do: every registry entry is
    registered under its own descriptor, every registration but the event
    fd's belongs to a registry entry, and no service is in the registry
    twice. *)
Theorem registry_stays_in_sync σ :
  (∀ p q, endpoint_epoll_fd p = endpoint_epoll_fd q → p = q) →
  (∀ q, endpoint_epoll_fd q ≠ event_fd_ (obj σ)) →
  reachable σ →
  in_sync (obj σ) ∧ NoDup (services_ (obj σ)).
Proof.
  intros Hinj Hfd Hreach.
  destruct (reachable_registry_ok σ Hinj Hfd Hreach) as (Hsync & _ & Hnd & _).
  by split.
Qed.

Lemma reachable_control_signal σ :
  (∀ q, endpoint_epoll_fd q ≠ event_fd_ (obj σ)) →
  reachable σ → control_signal_registered (obj σ).
Proof.
  intros Hfd (r1 & r2 & n & σ0 & tr & Hinit & Hrun).
  destruct (run_handles _ _ _ Hrun) as [Hefd _]. rewrite Hefd in Hfd.
  assert (control_signal_registered (obj σ0)) as H0.
  { destruct (init_obj _ _ _ _ Hinit) as (-> & _).
    unfold control_signal_registered. cbn. by rewrite lookup_singleton_eq. }
  apply (run_invariant
           (λ σ1, control_signal_registered (obj σ1)
                  ∧ event_fd_ (obj σ1) = event_fd_ (obj σ0)) tr σ0 σ);
    [|done|done].
  intros t l σ1 σ2 [H1 He] Hs. rewrite <- He in Hfd.
  destruct (step_inv _ _ _ _ Hs) as (p & p' & _ & Hts & _).
  destruct (thread_steps_registry _ _ _ _ _ Hts)
    as (Hefd' & _ & [[_ Hint]|(o & -> & _)] & _).
  - split; [|congruence]. unfold control_signal_registered.
    rewrite Hint, Hefd'. exact H1.
  - destruct (apply_op_handles o (obj σ1)) as (Hh & _).
    split; [by apply apply_op_control_signal|by rewrite Hh].
Qed.

(** X11: the handles a dispatcher got from [Create] are valid in every
    reachable state, and, as long as no service's
    endpoint descriptor is the event fd, the event fd stays registered in
    the epoll instance under the dispatcher's own address. *)
Theorem control_signal_stays_registered σ :
  (∀ q, endpoint_epoll_fd q ≠ event_fd_ (obj σ)) →
  reachable σ →
  handle_valid (event_fd_ (obj σ)) = true
  ∧ handle_valid (epoll_fd_ (obj σ)) = true
  ∧ interest (obj σ) !! event_fd_ (obj σ) = Some this.
Proof.
  intros Hfd Hreach.
  pose proof (reachable_control_signal σ Hfd Hreach) as Hsig.
  split_and!; [| |exact Hsig];
    destruct Hreach as (r1 & r2 & n & σ0 & tr & Hinit & Hrun);
    destruct (run_handles _ _ _ Hrun) as [He Hp];
    destruct (init_obj _ _ _ _ Hinit) as (-> & H1 & H2);
    cbn in He, Hp; rewrite ?He, ?Hp; by apply Z.leb_le.
Qed.

(** X12: a thread only ever calls a service that is in the registry at the
    moment of the call (and never the dispatcher's own address): between
    the wait that reported the service and the call, no [RemoveService] can
    have taken it out.  Needs distinct endpoint descriptors, none of them
    the event fd. *)
Theorem dispatched_service_is_registered σ t l σ' service :
  (∀ p q, endpoint_epoll_fd p = endpoint_epoll_fd q → p = q) →
  (∀ q, endpoint_epoll_fd q ≠ event_fd_ (obj σ)) →
  reachable σ →
  step t l σ = Some σ' →
  history (obj σ') = history (obj σ) ++ [EvDispatch service] →
  service ≠ this
  ∧ service ∈ services_ (obj σ)
  ∧ service ∈ services_ (obj σ').
Proof.
  intros Hinj Hfd Hreach Hstep Hhist.
  destruct (reachable_registry_ok σ Hinj Hfd Hreach)
    as ([_ Hsync] & Hsig & _ & Hpend & _).
  destruct (step_inv _ _ _ _ Hstep) as (p & p' & Hp & Hs & _).
  assert (service ≠ this ∧ service ∈ pending p
          ∧ services_ (obj σ') = services_ (obj σ)) as (Hne & Hq & Hsame).
  { clear -Hs Hhist. revert Hhist.
    assert (∀ f again after evs,
              history (event_step f again after evs (obj σ)).2
              = history (obj σ) ++ [EvDispatch service] →
              service ≠ this ∧ service ∈ evs
              ∧ services_ (event_step f again after evs (obj σ)).2
                = services_ (obj σ)) as Hevent.
    { intros f again after [|q rest]; cbn; [by intros ?%history_grows_not|].
      destruct (Z.eqb_spec q this) as [->|Hq]; cbn;
        [by intros ?%history_grows_not|].
      intros [_ [=]]%app_inj_tail. subst. split_and!; [done|by left|done]. }
    inversion Hs; subst; cbn [pending];
      try (by intros ?%history_grows_not);
      try (by intros [_ [=]]%app_inj_tail);
      try (by apply Hevent).
    - destruct (start_call_history c (obj σ)) as [Hh|[Hh|Hh]];
        rewrite Hh; [by intros ?%history_grows_not|by intros [_ [=]]%app_inj_tail..].
    - destruct (start_call_history c (obj σ)) as [Hh|[Hh|Hh]];
        rewrite Hh; [by intros ?%history_grows_not|by intros [_ [=]]%app_inj_tail..].
    - match goal with H : SetCanceled_resume _ = Some _ |- _ =>
        apply SetCanceled_resume_history in H as -> end.
      by intros ?%history_grows_not. }
  destruct (Hpend t p service Hp Hq) as [fd Hreg].
  assert (fd ≠ event_fd_ (obj σ)) as Hfdne.
  { intros ->. unfold control_signal_registered in Hsig. congruence. }
  destruct (Hsync fd service Hreg Hfdne) as [Hin _].
  split_and!; [done|done|by rewrite Hsame].
Qed.


(** X14: a dispatcher with an empty registry and no [SetCanceled] under way
    has nothing to report: its wait can only fail or, for a timeout that is
    not negative, expire; a wait with a negative timeout returns only by
    failing.
    So [ReceiveAndDispatch(0)] on such a dispatcher, when not canceled,
    returns -ETIMEDOUT unless the wait itself fails. *)
Theorem idle_dispatcher_wait σ timeout r w :
  (∀ p q, endpoint_epoll_fd p = endpoint_epoll_fd q → p = q) →
  (∀ q, endpoint_epoll_fd q ≠ event_fd_ (obj σ)) →
  reachable σ →
  services_ (obj σ) = [] →
  quiet (threads σ) = true →
  epoll_wait timeout r (obj σ) = Some w →
  match w with
  | WaitFail e =>
      canceled_ (obj σ) = false →
      (ReceiveAndDispatch timeout w (obj σ)).1 = neg_errno e
  | WaitReady evs =>
      evs = [] ∧ 0 ≤ timeout
      ∧ (canceled_ (obj σ) = false →
         (ReceiveAndDispatch timeout w (obj σ)).1 = -110)
  end.
Proof.
  intros Hinj Hfd Hreach Hempty Hquiet Hw.
  destruct (reachable_registry_ok σ Hinj Hfd Hreach) as ([_ Hsync] & _).
  destruct (reachable_invariants σ Hreach) as [_ Hsig].
  assert (event_counter (obj σ) = 0) as Hzero.
  { apply Hsig. intros u p. by apply quiet_lookup. }
  assert (wait_events w = []) as Hnone.
  { destruct (wait_events w) as [|q evs] eqn:Hev; [done|].
    destruct (epoll_wait_events _ _ _ _ q Hw) as (fd & Hreg & Hready);
      [rewrite Hev; by left|].
    unfold fd_ready in Hready.
    destruct (Z.eqb_spec fd (event_fd_ (obj σ))) as [->|Hne].
    - apply Z.ltb_lt in Hready. lia.
    - destruct (Hsync fd q Hreg Hne) as [Hq _]. rewrite Hempty in Hq.
      by apply elem_of_nil in Hq. }
  destruct w as [e|evs]; cbn in Hnone.
  - intros Hc. unfold ReceiveAndDispatch, ThreadEnter. by rewrite Hc.
  - subst evs. split_and!; [done| |].
    + unfold epoll_wait in Hw. destruct r as [e|[|fd fds]]; [done| |].
      * destruct (Z.leb_spec 0 timeout); [done|done].
      * destruct (_ && _); [|done].
        destruct (mapM _ _) as [evs|] eqn:Hm; [|done].
        apply mapM_Some, Forall2_length in Hm. injection Hw as ->. done.
    + intros Hc. unfold ReceiveAndDispatch, ThreadEnter. by rewrite Hc.
Qed.

Lemma step_while_canceled t l σ σ' :
  step t l σ = Some σ' → canceled_ (obj σ) = true →
  is_SetCanceled_call l = false →
  canceled_ (obj σ') = true
  ∧ thread_count_ (obj σ') ≤ thread_count_ (obj σ)
  ∧ (thread_count_ (obj σ) = 0 → count_ok σ → thread_count_ (obj σ') = 0).
Proof.
  intros Hstep Hcan Hl.
  destruct (step_inv _ _ _ _ Hstep) as (p & p' & Hp & Hs & _).
  destruct (thread_steps_fields _ _ _ _ _ Hs)
    as (Hc & Henter & _ & _ & Hsame & _).
  destruct Hsame as [Hcan' _]; [by intros b ->|].
  assert (inside p = false → inside p' = false) as Hnoenter.
  { intros Hi. destruct (inside p') eqn:Hi'; [|done].
    specialize (Henter Hi eq_refl). congruence. }
  split_and!; [congruence| |].
  - destruct (inside p) eqn:Hi; [destruct (inside p'); cbn in Hc; lia|].
    rewrite (Hnoenter eq_refl) in Hc. cbn in Hc. lia.
  - intros Hzero Hok. destruct (inside p) eqn:Hi.
    + pose proof (count_inside_lookup _ _ _ Hp Hi). unfold count_ok in Hok. lia.
    + rewrite (Hnoenter eq_refl) in Hc. cbn in Hc. lia.
Qed.

(** X15: once the flag is set, the number of active threads can only go
    down: along any execution without a call of [SetCanceled] the flag
    stays set and no [ThreadEnter] succeeds. *)
Theorem no_entry_while_canceled tr σ σ' :
  canceled_ (obj σ) = true →
  calls_no_SetCanceled tr = true →
  run tr σ = Some σ' →
  canceled_ (obj σ') = true
  ∧ thread_count_ (obj σ') ≤ thread_count_ (obj σ).
Proof.
  revert σ. induction tr as [|[t l] tr IH]; intros σ Hcan Hno Hrun.
  - cbn in Hrun. simplify_eq. split; [done|lia].
  - cbn in Hrun, Hno. apply andb_true_iff in Hno as [Hl Hno].
    destruct (step t l σ) as [σ1|] eqn:Hs; [|done]. cbn in Hrun.
    destruct (step_while_canceled _ _ _ _ Hs Hcan) as (Hcan1 & Hle & _).
    { by destruct (is_SetCanceled_call l). }
    destruct (IH σ1 Hcan1 Hno Hrun) as [? ?]. split; [done|lia].
Qed.

Lemma count_cancelling_nonneg ths : 0 ≤ count_cancelling ths.
Proof.
  induction ths as [|p ths IH]; cbn [count_cancelling]; [done|].
  destruct (cancelling p); cbn; lia.
Qed.

Lemma count_cancelling_insert ths t p p' :
  ths !! t = Some p →
  count_cancelling (<[t := p']> ths)
  = count_cancelling ths + Z.b2z (cancelling p') - Z.b2z (cancelling p).
Proof.
  revert t. induction ths as [|q ths IH]; intros [|t] Hp; try done.
  - change (Some q = Some p) in Hp. simplify_eq.
    change (<[0%nat := p']> (p :: ths)) with (p' :: ths).
    cbn [count_cancelling]. lia.
  - change (ths !! t = Some p) in Hp.
    change (<[S t := p']> (q :: ths)) with (q :: <[t := p']> ths).
    cbn [count_cancelling]. rewrite (IH t Hp). lia.
Qed.

Lemma count_cancelling_replicate n : count_cancelling (replicate n Idle) = 0.
Proof. induction n as [|n IH]; [done|]. cbn. by rewrite IH. Qed.

Lemma woken_count_cancelling ths ths' :
  woken ths ths' → count_cancelling ths' = count_cancelling ths.
Proof.
  intros [->|(u & Hu & ->)]; [done|].
  rewrite (count_cancelling_insert _ _ _ _ Hu). cbn. lia.
Qed.

(** What one step of a thread does to the event fd counter. *)
Lemma thread_steps_counter l p s p' s' :
  thread_steps l p s p' s' →
  (event_counter s' = event_counter s ∧ cancelling p' = cancelling p)
  ∨ (cancelling p = false ∧ cancelling p' = true
     ∧ event_counter s ≤ event_counter s' ≤ event_counter s + 1)
  ∨ (cancelling p = true ∧ cancelling p' = false ∧ event_counter s' = 0).
Proof.
  assert (∀ c s0,
            (event_counter (start_call c s0).2 = event_counter s0
             ∧ cancelling (start_call c s0).1 = false)
            ∨ (cancelling (start_call c s0).1 = true
               ∧ event_counter s0 ≤ event_counter (start_call c s0).2
                 ≤ event_counter s0 + 1)) as Hcall.
  { intros [service fault|service fault| |timeout| |cancel] s0; cbn;
      unfold AddService, RemoveService, enter, ThreadEnter, SetCanceled_begin,
        eventfd_write_counter;
      repeat (case_match; simplify_eq; cbn; auto); right; split; try done; lia. }
  intros [c s0|f ret c s0|timeout r w s0 Hw|evs s0|s0|r w s0 Hw|evs s0
         |f ret target s0|s0|s0 s1 Hr|s0 Hr].
  - destruct (Hcall c s0) as [[? ?]|[? ?]]; [by left|right; by left].
  - destruct (Hcall c s0) as [[? ?]|[? ?]]; [by left|right; by left].
  - left. split; [done|]. by repeat case_match.
  - destruct (event_step_fields ViaReceiveAndDispatch RD_events
                (Exiting ViaReceiveAndDispatch 0) evs s0)
      as (_ & Hc & _ & _ & He); [done..|]. left. by rewrite Hc, He.
  - left. split; [done|]. by repeat case_match.
  - left. split; [done|]. by repeat case_match.
  - destruct (event_step_fields ViaEnterDispatchLoop Loop_events
                Loop_test evs s0)
      as (_ & Hc & _ & _ & He); [done..|]. left. by rewrite Hc, He.
  - by left.
  - by left.
  - destruct (SetCanceled_resume_fields _ _ Hr) as (_ & _ & _ & _ & ?).
    right. by right.
  - by left.
Qed.

(** X16: in every reachable state the event fd counter is at least 0 and
    at most the number of threads inside [SetCanceled]; in particular the
    event fd is unsignaled whenever no [SetCanceled] is under way. *)
Theorem signal_bounded σ :
  reachable σ →
  0 ≤ event_counter (obj σ) ≤ count_cancelling (threads σ)
  ∧ (quiet (threads σ) = true → event_counter (obj σ) = 0).
Proof.
  intros Hreach.
  assert (0 ≤ event_counter (obj σ) ≤ count_cancelling (threads σ)) as Hb.
  { destruct Hreach as (r1 & r2 & n & σ0 & tr & Hinit & Hrun).
    apply (run_invariant
             (λ σ1, 0 ≤ event_counter (obj σ1) ≤ count_cancelling (threads σ1))
             tr σ0 σ); [| |done].
    - intros t l σ1 σ2 Hb Hs.
      destruct (step_inv _ _ _ _ Hs) as (p & p' & Hp & Hts & Hw & _).
      rewrite (woken_count_cancelling _ _ Hw),
        (count_cancelling_insert _ _ _ _ Hp).
      pose proof (count_cancelling_nonneg (<[t := p']> (threads σ1))) as Hnn.
      rewrite (count_cancelling_insert _ _ _ _ Hp) in Hnn.
      destruct (thread_steps_counter _ _ _ _ _ Hts)
        as [[He Hc]|[(Hc & Hc' & ?)|(Hc & Hc' & He)]];
        rewrite ?He, ?Hc, ?Hc' in *; cbn in *; lia.
    - destruct (init_obj _ _ _ _ Hinit) as (-> & _). cbn.
      rewrite count_cancelling_replicate. lia. }
  split; [done|]. intros Hquiet.
  destruct (reachable_invariants σ Hreach) as [_ Hsig].
  apply Hsig. intros u p. by apply quiet_lookup.
Qed.

(** X17: [ThreadExit] wakes one sleeper only.  A [SetCanceled(true)] left
    asleep on [condition_] when the flag is set and no thread is active
    stays asleep, although its predicate holds, for as long as nobody calls
    [SetCanceled] again and no spurious wake-up reaches it: nothing else
    can notify it, as nobody can enter and so nobody exits. *)
Theorem canceller_left_asleep σ u tr σ' :
  reachable σ →
  threads σ !! u = Some SC_blocked →
  canceled_ (obj σ) = true →
  thread_count_ (obj σ) = 0 →
  calls_no_SetCanceled tr = true →
  no_spurious_wake u tr = true →
  run tr σ = Some σ' →
  threads σ' !! u = Some SC_blocked ∧ wait_pred (obj σ') = true.
Proof.
  intros [Hok _]%reachable_invariants.
  revert σ Hok. induction tr as [|[t l] tr IH];
    intros σ Hok Hu Hcan Hzero Hno Hsp Hrun.
  - cbn in Hrun. simplify_eq. split; [done|].
    unfold wait_pred. by rewrite Hcan, Hzero.
  - cbn in Hrun, Hno, Hsp. apply andb_true_iff in Hno as [Hl Hno].
    apply andb_true_iff in Hsp as [Hw Hsp].
    destruct (step t l σ) as [σ1|] eqn:Hs; [|done]. cbn in Hrun.
    apply negb_true_iff in Hl.
    destruct (step_while_canceled _ _ _ _ Hs Hcan Hl) as (Hcan1 & _ & Hzero1).
    apply (IH σ1); try done; [by eapply step_count_ok| |by apply Hzero1].
    destruct (step_inv _ _ _ _ Hs) as (p & p' & Hp & Hts & _ & Hths).
    assert (inside p = false) as Hout.
    { destruct (inside p) eqn:Hi; [|done].
      pose proof (count_inside_lookup _ _ _ Hp Hi). unfold count_ok in Hok. lia. }
    rewrite Hths; [|intros target ->; by inversion Hts; subst].
    destruct (decide (t = u)) as [->|Hne].
    + rewrite Hu in Hp. simplify_eq. inversion Hts; subst.
      cbn in Hw. by rewrite Nat.eqb_refl in Hw.
    + by rewrite list_lookup_insert_ne.
Qed.

Lemma run_app tr1 tr2 σ0 σ1 :
  run tr1 σ0 = Some σ1 → run (tr1 ++ tr2) σ0 = run tr2 σ1.
Proof.
  revert σ0. induction tr1 as [|[t l] tr1 IH]; intros σ0 H; cbn in *.
  - by simplify_eq.
  - destruct (step t l σ0) as [σ|]; [|done]. cbn in *. by apply IH.
Qed.

Lemma reachable_run tr σ0 σ :
  reachable σ0 → run tr σ0 = Some σ → reachable σ.
Proof.
  intros (r1 & r2 & n & σi & tr0 & Hinit & Hrun0) Hrun.
  exists r1, r2, n, σi, (tr0 ++ tr). split; [done|].
  by rewrite (run_app _ _ _ _ Hrun0).
Qed.

Lemma step_cancel_signaled t u l σ σ' :
  cancel_signaled t σ → is_SetCanceled_call l = false →
  step u l σ = Some σ' → cancel_signaled t σ'.
Proof.
  intros (Hcan & Hothers & Hmine) Hl Hstep.
  destruct (step_inv _ _ _ _ Hstep) as (p & p' & Hp & Hs & Hw & Hths).
  destruct (thread_steps_fields _ _ _ _ _ Hs) as (_ & _ & _ & _ & Hsame & _).
  destruct Hsame as [Hcan' Hcanc]; [by intros b ->|].
  assert (cancelling p = false → cancelling p' = false) as Hnocancel.
  { intros Hcp. destruct (cancelling p') eqn:Hcp'; [|done].
    specialize (Hcanc eq_refl). congruence. }
  assert (∀ v q, threads σ' !! v = Some q →
            (v = u ∧ q = p')
            ∨ (v ≠ u ∧ ∃ q0, threads σ !! v = Some q0
                             ∧ cancelling q = cancelling q0)) as Hlook.
  { intros v q Hq.
    destruct (woken_lookup _ _ _ _ Hw Hq) as [Hq1|[-> Hq1]].
    - destruct (insert_lookup_cases _ _ _ _ _ _ Hp Hq1) as [[-> ->]|[Hne Hq2]];
        [by left|right]. split; [done|]. by exists q.
    - destruct (insert_lookup_cases _ _ _ _ _ _ Hp Hq1) as [[-> <-]|[Hne Hq2]].
      + exfalso.
        destruct l; try (rewrite Hths in Hq by done;
                         rewrite list_lookup_insert_eq in Hq
                           by (by eapply lookup_lt_Some);
                         done).
        inversion Hs.
      + right. split; [done|]. by exists SC_blocked. }
  split_and!; [congruence| |].
  - intros v q Hv Hq. destruct (Hlook v q Hq) as [[-> ->]|(Hne & q0 & Hq0 & ->)].
    + apply Hnocancel. by apply (Hothers u).
    + by apply (Hothers v).
  - intros q Hq.
    destruct (thread_steps_counter _ _ _ _ _ Hs)
      as [[He Hc]|[(Hc & Hc' & _)|(Hc & Hc' & He)]].
    + destruct (Hlook t q Hq) as [[-> ->]|(Hne & q0 & Hq0 & ->)].
      * rewrite He, Hc. by apply Hmine.
      * rewrite He. by apply Hmine.
    + specialize (Hnocancel Hc). congruence.
    + destruct (Hlook t q Hq) as [[-> ->]|(Hne & q0 & Hq0 & Hcq)].
      * by rewrite He, Hc'.
      * pose proof (Hothers u p ltac:(done) Hp). congruence.
Qed.

Lemma run_cancel_signaled t tr σ σ' :
  cancel_signaled t σ → calls_no_SetCanceled tr = true →
  run tr σ = Some σ' → cancel_signaled t σ'.
Proof.
  revert σ. induction tr as [|[u l] tr IH]; intros σ Hw Hno Hrun.
  - cbn in Hrun. by simplify_eq.
  - cbn in Hrun, Hno. apply andb_true_iff in Hno as [Hl Hno].
    destruct (step u l σ) as [σ1|] eqn:Hs; [|done]. cbn in Hrun.
    apply (IH σ1); [|done|done].
    apply (step_cancel_signaled t u l σ); [done| |done].
    by apply negb_true_iff.
Qed.

Lemma start_cancel_signaled t σ σ' :
  signal_ok σ → quiet (threads σ) = true →
  step t (LCall (CSetCanceled true)) σ = Some σ' → cancel_signaled t σ'.
Proof.
  intros Hsig Hquiet Hstep.
  assert (event_counter (obj σ) = 0) as Hzero.
  { apply Hsig. intros u p. by apply quiet_lookup. }
  destruct (step_inv _ _ _ _ Hstep) as (p & p' & Hp & Hs & _ & Hths).
  specialize (Hths ltac:(done)).
  destruct (thread_steps_fields _ _ _ _ _ Hs)
    as (_ & _ & Hkeep & _ & _ & _ & Hstart & _).
  destruct (Hstart eq_refl) as [Hcan _].
  split_and!; [done| |].
  - intros v q Hv Hq. rewrite Hths, list_lookup_insert_ne in Hq by done.
    by eapply quiet_lookup.
  - intros q Hq.
    rewrite Hths, list_lookup_insert_eq in Hq by by eapply lookup_lt_Some.
    injection Hq as <-.
    pose proof (quiet_lookup _ _ _ Hquiet Hp) as Hcp.
    destruct (cancelling p') eqn:Hcp'.
    + assert (∀ s0, event_counter s0 = 0 →
                cancelling (start_call (CSetCanceled true) s0).1 = true →
                event_counter (start_call (CSetCanceled true) s0).2 = 1)
        as Hbegin.
      { intros s0 H0. cbn. unfold SetCanceled_begin, eventfd_write_counter.
        cbn. rewrite H0. by destruct (thread_count_ s0 >? 0). }
      inversion Hs; subst; by apply Hbegin.
    + rewrite Hkeep by done. done.
Qed.

(** X18: while a [SetCanceled(true)] issued with no other [SetCanceled]
    under way is between its write and its read, and nobody else calls
    [SetCanceled], the event fd counter is exactly 1 and the event fd is
    registered, so the kernel can report it to every waiter, whatever its
    timeout; a thread blocked in the wait of [EnterDispatchLoop] or of
    [ReceiveAndDispatch] that gets this report leaves at once with
    -EBUSY. *)
Theorem cancellation_signals_waiters σ0 t tr σ timeout :
  reachable σ0 →
  quiet (threads σ0) = true →
  (∀ q, endpoint_epoll_fd q ≠ event_fd_ (obj σ0)) →
  calls_no_SetCanceled tr = true →
  run ((t, LCall (CSetCanceled true)) :: tr) σ0 = Some σ →
  (∃ p, threads σ !! t = Some p ∧ cancelling p = true) →
  event_counter (obj σ) = 1
  ∧ epoll_wait timeout (KReady [event_fd_ (obj σ)]) (obj σ)
    = Some (WaitReady [this])
  ∧ run_thread [LWait (KReady [event_fd_ (obj σ)]); LStep; LExit None]
      Loop_wait (obj σ)
    = Some (Returned FEnterDispatchLoop (-16),
            ThreadExit (record (EvWait (-1)) (obj σ)))
  ∧ run_thread [LWait (KReady [event_fd_ (obj σ)]); LStep; LExit None]
      (RD_wait timeout) (obj σ)
    = Some (Returned FReceiveAndDispatch (-16),
            ThreadExit (record (EvWait timeout) (obj σ))).
Proof.
  intros Hreach Hquiet Hfd Hno Hrun (p & Hp & Hcp).
  pose proof (reachable_run _ _ _ Hreach Hrun) as Hreach'.
  destruct (run_handles _ _ _ Hrun) as [Hefd _]. rewrite <- Hefd in Hfd.
  pose proof (reachable_control_signal σ Hfd Hreach') as Hreg.
  unfold control_signal_registered in Hreg.
  destruct (reachable_invariants σ0 Hreach) as [_ Hsig].
  cbn [run] in Hrun.
  destruct (step t (LCall (CSetCanceled true)) σ0) as [σ'|] eqn:Hfirst; [|done].
  cbn in Hrun.
  assert (cancel_signaled t σ) as (_ & _ & Hmine).
  { apply (run_cancel_signaled t tr σ'); [|done|done].
    by apply (start_cancel_signaled t σ0). }
  pose proof (Hmine p Hp) as Hone. rewrite Hcp in Hone. cbn in Hone.
  assert (∀ timeout0 h,
            epoll_wait timeout0 (KReady [event_fd_ (obj σ)])
              (record h (obj σ)) = Some (WaitReady [this])
            ∧ epoll_wait timeout0 (KReady [event_fd_ (obj σ)]) (obj σ)
              = Some (WaitReady [this])) as Hwait.
  { intros timeout0 h. unfold epoll_wait, fd_ready. cbn.
    rewrite Z.eqb_refl, Hone, Hreg. cbn.
    rewrite bool_decide_eq_true_2 by apply NoDup_singleton. done. }
  split_and!; [done|apply (Hwait timeout EvEnter)| |].
  - cbn -[epoll_wait]. rewrite (proj2 (Hwait (-1) EvEnter)).
    cbn [mbind option_bind wait_count wait_events length].
    change (Z.of_nat 1 <? 0) with false.
    cbn. by rewrite Z.eqb_refl.
  - cbn -[epoll_wait]. rewrite (proj2 (Hwait timeout EvEnter)).
    cbn [mbind option_bind wait_count wait_events length].
    change (Z.of_nat 1 <=? 0) with false.
    cbn. by rewrite Z.eqb_refl.
Qed.

End Dispatcher.

(** * [NativeBufferProducer]: slices and EGL images *)

Section NativeBufferProducer.

#[local] Set Default Proof Using "Type".

Variable EGL_NO_IMAGE_KHR : Z.
Variable slice_count : Z → Z.
Variable eglCreateImageKHR : Z → Z → Z.

#[local] Abbreviation ctor_loop := (NativeBuffer.ctor_loop eglCreateImageKHR).
#[local] Abbreviation producer_ctor :=
  (NativeBuffer.ctor slice_count eglCreateImageKHR).
#[local] Abbreviation producer_ctor1 :=
  (NativeBuffer.ctor1 slice_count eglCreateImageKHR).
#[local] Abbreviation producer_dtor := (NativeBuffer.dtor EGL_NO_IMAGE_KHR).
#[local] Abbreviation destroy_images :=
  (NativeBuffer.destroy_images EGL_NO_IMAGE_KHR).

Lemma indexes_length n i : length (NativeBuffer.indexes n i) = n.
Proof. revert i. induction n as [|n IH]; intros i; cbn; [done|]. by rewrite IH. Qed.

Lemma indexes_lookup n i (k : nat) :
  (k < n)%nat → NativeBuffer.indexes n i !! k = Some (i + Z.of_nat k).
Proof.
  revert i k. induction n as [|n IH]; intros i k Hk; [lia|].
  destruct k as [|k]; cbn.
  - f_equal. lia.
  - rewrite IH by lia. f_equal. lia.
Qed.

Lemma ctor_loop_fields n i p :
  NativeBuffer.buffer_ (ctor_loop n i p) = NativeBuffer.buffer_ p
  ∧ NativeBuffer.display_ (ctor_loop n i p) = NativeBuffer.display_ p
  ∧ NativeBuffer.surface_buffer_index_ (ctor_loop n i p)
    = NativeBuffer.surface_buffer_index_ p
  ∧ NativeBuffer.slices_ (ctor_loop n i p)
    = NativeBuffer.slices_ p ++ NativeBuffer.indexes n i
  ∧ NativeBuffer.egl_images_ (ctor_loop n i p)
    = NativeBuffer.egl_images_ p
      ++ (if NativeBuffer.display_ p =? NativeBuffer.nullptr then []
          else map (eglCreateImageKHR (NativeBuffer.display_ p))
                 (NativeBuffer.indexes n i))
  ∧ NativeBuffer.egl_calls (ctor_loop n i p)
    = NativeBuffer.egl_calls p
      ++ (if NativeBuffer.display_ p =? NativeBuffer.nullptr then []
          else map (NativeBuffer.EglCreateImage (NativeBuffer.display_ p))
                 (NativeBuffer.indexes n i)).
Proof.
  revert i p. induction n as [|n IH]; intros i p.
  - cbn. destruct (_ =? _); by rewrite !app_nil_r.
  - cbn [NativeBuffer.ctor_loop NativeBuffer.indexes].
    destruct (IH (i + 1) (NativeBuffer.loop_body eglCreateImageKHR i p))
      as (-> & -> & -> & -> & -> & ->).
    unfold NativeBuffer.loop_body. cbn.
    destruct (NativeBuffer.display_ p =? NativeBuffer.nullptr) eqn:Hd; cbn;
      rewrite ?Hd, ?app_nil_r, <- ?app_assoc; done.
Qed.

(** X19: the constructor makes one slice per buffer index below
    [slice_count], in order, with or without a display; and
    [image_khr(index)] reads inside the vector exactly when a display was
    given and [0 ≤ index < slice_count]: it is then what
    [eglCreateImageKHR] returned for that slice, also when that call
    failed. *)
Theorem producer_slices_and_images buffer display surface_buffer_index index :
  NativeBuffer.slices_ (producer_ctor buffer display surface_buffer_index)
  = NativeBuffer.indexes (Z.to_nat (slice_count buffer)) 0
  ∧ NativeBuffer.image_khr index
      (producer_ctor buffer display surface_buffer_index)
    = if bool_decide (display ≠ NativeBuffer.nullptr
                      ∧ 0 ≤ index < slice_count buffer)
      then Some (eglCreateImageKHR display index)
      else None.
Proof.
  unfold NativeBuffer.ctor, NativeBuffer.image_khr.
  destruct (ctor_loop_fields (Z.to_nat (slice_count buffer)) 0
              (NativeBuffer.mkProducer buffer [] [] surface_buffer_index
                 display []))
    as (_ & _ & _ & -> & -> & _).
  cbn. split; [done|].
  destruct (index <? 0) eqn:Hneg.
  { rewrite bool_decide_eq_false_2; [done|lia]. }
  destruct (display =? NativeBuffer.nullptr) eqn:Hd.
  { rewrite bool_decide_eq_false_2; [done|lia]. }
  rewrite list_lookup_fmap.
  destruct (decide (index < slice_count buffer)) as [Hlt|Hge].
  - rewrite bool_decide_eq_true_2 by lia.
    rewrite indexes_lookup by lia. cbn. do 2 f_equal. lia.
  - rewrite bool_decide_eq_false_2 by lia.
    rewrite lookup_ge_None_2; [done|]. rewrite indexes_length. lia.
Qed.

Lemma destroy_images_filter display images :
  destroy_images display images
  = map (NativeBuffer.EglDestroyImage display)
      (List.filter (λ egl_image, negb (egl_image =? EGL_NO_IMAGE_KHR)) images).
Proof.
  induction images as [|x images IH]; [done|].
  cbn. destruct (x =? EGL_NO_IMAGE_KHR); cbn; by rewrite IH.
Qed.

(** X20: over the life of a producer with a display, EGL sees one
    [eglCreateImageKHR] per slice, in order of the buffer index, and then
    one [eglDestroyImageKHR], on the same display, for each of these
    calls that did not return [EGL_NO_IMAGE_KHR], in the same order, and
    nothing else: no image that was created is left behind, and
    [EGL_NO_IMAGE_KHR] is never destroyed. *)
Theorem producer_images_created_then_destroyed buffer display
    surface_buffer_index :
  display ≠ NativeBuffer.nullptr →
  NativeBuffer.egl_calls
    (producer_dtor (producer_ctor buffer display surface_buffer_index))
  = map (NativeBuffer.EglCreateImage display)
      (NativeBuffer.indexes (Z.to_nat (slice_count buffer)) 0)
    ++ map (NativeBuffer.EglDestroyImage display)
         (List.filter (λ egl_image, negb (egl_image =? EGL_NO_IMAGE_KHR))
            (map (eglCreateImageKHR display)
               (NativeBuffer.indexes (Z.to_nat (slice_count buffer)) 0))).
Proof.
  intros Hd. unfold NativeBuffer.dtor, NativeBuffer.ctor. cbn.
  destruct (ctor_loop_fields (Z.to_nat (slice_count buffer)) 0
              (NativeBuffer.mkProducer buffer [] [] surface_buffer_index
                 display []))
    as (_ & -> & _ & _ & -> & ->).
  cbn. apply Z.eqb_neq in Hd. rewrite Hd.
  by rewrite destroy_images_filter.
Qed.

(** X21: a producer made without a display (as by the one-argument
    constructor) never calls EGL, neither when it is made nor when it is
    destroyed, and has no image: [image_khr] reads outside the vector for
    every index.  Its slices are made all the same. *)
Theorem producer_without_display buffer index :
  NativeBuffer.egl_calls (producer_dtor (producer_ctor1 buffer)) = []
  ∧ NativeBuffer.egl_images_ (producer_ctor1 buffer) = []
  ∧ NativeBuffer.image_khr index (producer_ctor1 buffer) = None
  ∧ length (NativeBuffer.slices_ (producer_ctor1 buffer))
    = Z.to_nat (slice_count buffer).
Proof.
  unfold NativeBuffer.ctor1, NativeBuffer.dtor, NativeBuffer.ctor,
    NativeBuffer.image_khr.
  destruct (ctor_loop_fields (Z.to_nat (slice_count buffer)) 0
              (NativeBuffer.mkProducer buffer [] [] 0 NativeBuffer.nullptr []))
    as (_ & Hdisplay & _ & Hslices & Himages & Hcalls).
  cbn in *. rewrite Hcalls, Himages, Hslices, Hdisplay. cbn.
  split_and!; [done|done| |by rewrite indexes_length].
  by destruct (index <? 0).
Qed.

End NativeBufferProducer.









(** ** Worked examples on the sample data *)

Lemma ReceiveAndDispatch_balanced_witness :
  (ThreadEnter sample_idle).1 = 0
  ∧ (thread_count_
       (ReceiveAndDispatch sample_this 5 (WaitReady [11; 1000; 12]) sample_idle).2
     = thread_count_ sample_idle
     ∧ occurrences EvEnter
         (history (ReceiveAndDispatch sample_this 5 (WaitReady [11; 1000; 12])
                     sample_idle).2)
       = S (occurrences EvEnter (history sample_idle))
     ∧ occurrences EvExit
         (history (ReceiveAndDispatch sample_this 5 (WaitReady [11; 1000; 12])
                     sample_idle).2)
       = S (occurrences EvExit (history sample_idle))
     ∧ last (history (ReceiveAndDispatch sample_this 5 (WaitReady [11; 1000; 12])
                        sample_idle).2)
       = Some EvExit).
Proof.
  split; [reflexivity|].
  apply (ReceiveAndDispatch_balanced sample_this 5 (WaitReady [11; 1000; 12])
           sample_idle).
  reflexivity.
Defined.

Lemma RemoveService_busy_witness :
  sample_ipc_tag 11 = sample_kIpcTag
  ∧ 0 < thread_count_ sample_busy
  ∧ RemoveService sample_kIpcTag sample_ipc_tag sample_epoll_fd None 11
      sample_busy
    = (-16, sample_busy).
Proof.
  split; [reflexivity|]. split; [reflexivity|].
  apply (proj1 (RemoveService_busy sample_this sample_kIpcTag sample_ipc_tag
                  sample_epoll_fd None 11 eq_refl)).
  reflexivity.
Defined.

Lemma ReceiveAndDispatch_control_signal_witness :
  (ThreadEnter sample_idle).1 = 0
  ∧ [11; 1000; 12] !! 1%nat = Some sample_this
  ∧ (ReceiveAndDispatch sample_this 5 (WaitReady [11; 1000; 12]) sample_idle).1
    = -16
  ∧ history
      (ReceiveAndDispatch sample_this 5 (WaitReady [11; 1000; 12]) sample_idle).2
    = [EvEnter; EvWait 5; EvDispatch 11; EvExit].
Proof.
  split; [reflexivity|]. split; [reflexivity|].
  apply (ReceiveAndDispatch_control_signal sample_this 5 [11; 1000; 12] 1
           sample_idle); [reflexivity|reflexivity|].
  intros [|j] Hj; [discriminate|lia].
Defined.

Lemma Create_all_or_nothing_witness :
  (3 < 0 ∨ -1 < 0 ∨ is_Some (@None positive))
  ∧ Create sample_this 3 (-1) None = None.
Proof.
  split; [right; left; reflexivity|].
  apply (proj1 (Create_all_or_nothing sample_this 3 (-1) None)).
  right; left; reflexivity.
Defined.

Lemma registry_lockstep_on_failure_witness :
  sample_ipc_tag 12 = sample_kIpcTag
  ∧ (epoll_ctl None EPOLL_CTL_ADD (sample_epoll_fd 12) 12
       (interest sample_idle)).1 = Some EEXIST
  ∧ AddService sample_kIpcTag sample_ipc_tag sample_epoll_fd None 12 sample_idle
    = (-17, sample_idle).
Proof.
  split; [reflexivity|]. split; [reflexivity|].
  apply (proj1 (registry_lockstep_on_failure sample_kIpcTag sample_ipc_tag
                  sample_epoll_fd sample_idle) None 12 EEXIST);
    reflexivity.
Defined.



Lemma dispatch_loop_wait_errors_witness :
  IsCanceled sample_busy = false
  ∧ dispatch_loop sample_this [WaitFail EINTR; WaitReady [1000]] sample_busy
    = dispatch_loop sample_this [WaitReady [1000]]
        (record (EvWait (-1)) sample_busy).
Proof.
  split; [reflexivity|].
  apply (dispatch_loop_wait_errors sample_this sample_kIpcTag sample_ipc_tag
           sample_epoll_fd [WaitReady [1000]] sample_busy).
  reflexivity.
Defined.

Lemma ReceiveAndDispatch0_is_infinite_timeout_witness :
  (ThreadEnter sample_idle).1 = 0
  ∧ EvWait (-1)
    ∈ drop (length (history sample_idle))
        (history (ReceiveAndDispatch0 sample_this (WaitReady [11]) sample_idle).2).
Proof.
  split; [reflexivity|].
  apply (ReceiveAndDispatch0_is_infinite_timeout sample_this sample_kIpcTag
           sample_ipc_tag sample_epoll_fd (WaitReady [11]) sample_idle).
  reflexivity.
Defined.

Lemma sample_waiting_reachable :
  reachable sample_this sample_kIpcTag sample_ipc_tag sample_epoll_fd
    sample_waiting.
Proof.
  exists 3, 4, 2%nat, (mkSystem (mkDispatcher 3 4 [] 0 false 0 {[3 := 1000]} [])
                         [Idle; Idle]), to_sample_waiting.
  split; reflexivity.
Defined.

Lemma sample_woken_reachable :
  reachable sample_this sample_kIpcTag sample_ipc_tag sample_epoll_fd
    sample_woken.
Proof.
  exists 3, 4, 2%nat, (mkSystem (mkDispatcher 3 4 [] 0 false 0 {[3 := 1000]} [])
                         [Idle; Idle]), to_sample_woken.
  split; reflexivity.
Defined.

Lemma thread_count_invariant_witness :
  reachable sample_this sample_kIpcTag sample_ipc_tag sample_epoll_fd
    sample_waiting
  ∧ 0 ≤ thread_count_ (obj sample_waiting)
  ∧ thread_count_ (obj sample_waiting) = count_inside (threads sample_waiting)
  ∧ reachable sample_this sample_kIpcTag sample_ipc_tag sample_epoll_fd
      sample_woken
  ∧ step sample_this sample_kIpcTag sample_ipc_tag sample_epoll_fd 1 LStep
      sample_woken
    = Some sample_canceled
  ∧ threads sample_canceled !! 1%nat = Some (Returned (FSetCanceled true) 0)
  ∧ canceled_ (obj sample_canceled) = true
  ∧ thread_count_ (obj sample_canceled) = 0.
Proof.
  split; [exact sample_waiting_reachable|].
  destruct (thread_count_invariant sample_this sample_kIpcTag sample_ipc_tag
              sample_epoll_fd sample_waiting sample_waiting_reachable)
    as (Hnonneg & Hcount & _).
  split; [exact Hnonneg|]. split; [exact Hcount|].
  split; [exact sample_woken_reachable|].
  split; [reflexivity|]. split; [reflexivity|]. split; [reflexivity|].
  destruct (thread_count_invariant sample_this sample_kIpcTag sample_ipc_tag
              sample_epoll_fd sample_woken sample_woken_reachable)
    as (_ & _ & Hreturn).
  exact (Hreturn 1%nat LStep sample_canceled eq_refl eq_refl eq_refl).
Defined.

Lemma SetCanceled_twice_witness :
  reachable sample_this sample_kIpcTag sample_ipc_tag sample_epoll_fd
    sample_waiting
  ∧ calls_no_SetCanceled cancel_completes = true
  ∧ run sample_this sample_kIpcTag sample_ipc_tag sample_epoll_fd
      ((1%nat, LCall (CSetCanceled true)) :: cancel_completes) sample_waiting
    = Some sample_canceled
  ∧ threads sample_canceled !! 1%nat = Some (Returned (FSetCanceled true) 0)
  ∧ ∃ σ2,
      step sample_this sample_kIpcTag sample_ipc_tag sample_epoll_fd 1
        (LCall (CSetCanceled true)) sample_canceled = Some σ2
      ∧ threads σ2 !! 1%nat = Some (Returned (FSetCanceled true) 0)
      ∧ thread_count_ (obj σ2) = 0
      ∧ event_counter (obj σ2) = event_counter (obj sample_canceled)
      ∧ (quiet (threads sample_canceled) = true →
         event_counter (obj σ2) = 0).
Proof.
  split; [exact sample_waiting_reachable|].
  split; [reflexivity|]. split; [reflexivity|]. split; [reflexivity|].
  apply (SetCanceled_twice sample_this sample_kIpcTag sample_ipc_tag
           sample_epoll_fd sample_waiting 1 cancel_completes sample_canceled);
    [exact sample_waiting_reachable|reflexivity..].
Defined.

(** C8 as stated does not hold: a [SetCanceled(true)] that was notified
    but has not yet run again has not read the event fd, so two calls of
    another thread in between return with the event fd still signaled. *)
Lemma second_cancel_finds_signal_set :
  ¬ second_cancel_leaves_unsignaled sample_this sample_kIpcTag
      sample_ipc_tag sample_epoll_fd.
Proof.
  intros Hclaim.
  assert (reachable sample_this sample_kIpcTag sample_ipc_tag sample_epoll_fd
            sample_notified) as Hreach.
  { exists 3, 4, 3%nat,
      (mkSystem (mkDispatcher 3 4 [] 0 false 0 {[3 := 1000]} [])
         [Idle; Idle; Idle]), to_sample_notified.
    split; reflexivity. }
  specialize (Hclaim sample_notified 2%nat [] sample_notified_canceled
                sample_notified_canceled Hreach eq_refl eq_refl eq_refl
                eq_refl eq_refl eq_refl).
  discriminate Hclaim.
Qed.

(** C1 as stated does not hold: with [SetCanceled(false)] running while a
    [SetCanceled(true)] sleeps, the sleeper returns as soon as one thread
    leaves, with another thread still inside. *)
Lemma canceled_returns_with_thread_inside :
  ¬ quiescent_whenever_canceled_returns sample_this sample_kIpcTag
      sample_ipc_tag sample_epoll_fd.
Proof.
  intros Hclaim.
  assert (reachable sample_this sample_kIpcTag sample_ipc_tag sample_epoll_fd
            sample_uncanceled) as Hreach.
  { exists 3, 4, 4%nat,
      (mkSystem (mkDispatcher 3 4 [] 0 false 0 {[3 := 1000]} [])
         [Idle; Idle; Idle; Idle]), uncancel_race.
    split; reflexivity. }
  specialize (Hclaim sample_uncanceled 2%nat LStep
                (mkSystem (mkDispatcher 3 4 [] 1 false 0 {[3 := 1000]}
                             [EvEnter; EvEnter; EvWait (-1); EvExit])
                          [Returned FEnterDispatchLoop (-16); Loop_test;
                           Returned (FSetCanceled true) 0;
                           Returned (FSetCanceled false) 0])
                Hreach eq_refl eq_refl).
  discriminate Hclaim.
Qed.

(** ** Worked examples for the further properties *)

Lemma sample_serving_reachable :
  reachable sample_this sample_kIpcTag sample_ipc_tag sample_even_fd
    sample_serving.
Proof.
  exists 3, 4, 2%nat, (sample_fresh 2), to_sample_serving.
  split; reflexivity.
Defined.

Lemma sample_waiting_reachable_even :
  reachable sample_this sample_kIpcTag sample_ipc_tag sample_even_fd
    sample_waiting.
Proof.
  exists 3, 4, 2%nat, (sample_fresh 2), to_sample_waiting.
  split; reflexivity.
Defined.

Lemma sample_cancelling_reachable :
  reachable sample_this sample_kIpcTag sample_ipc_tag sample_even_fd
    sample_cancelling.
Proof.
  exists 3, 4, 2%nat, (sample_fresh 2), to_sample_cancelling.
  split; reflexivity.
Defined.

Lemma sample_stranded_reachable :
  reachable sample_this sample_kIpcTag sample_ipc_tag sample_even_fd
    sample_stranded.
Proof.
  exists 3, 4, 3%nat, (sample_fresh 3), to_sample_stranded.
  split; reflexivity.
Defined.

Lemma entry_refused_when_canceled_witness :
  canceled_ (obj sample_canceled) = true
  ∧ ReceiveAndDispatch sample_this 5 (WaitReady [11]) (obj sample_canceled)
    = (-16, obj sample_canceled)
  ∧ ReceiveAndDispatch0 sample_this (WaitReady [11]) (obj sample_canceled)
    = (-16, obj sample_canceled)
  ∧ EnterDispatchLoop sample_this [WaitReady [11]] (obj sample_canceled)
    = Some (-16, obj sample_canceled).
Proof.
  split; [reflexivity|].
  apply (entry_refused_when_canceled sample_this 5 (WaitReady [11])
           [WaitReady [11]] (obj sample_canceled)).
  reflexivity.
Defined.

Lemma ReceiveAndDispatch_status_witness :
  canceled_ sample_idle = false
  ∧ (ReceiveAndDispatch sample_this 5 (WaitReady [11; 1000; 12]) sample_idle).1
    = batch_status sample_this (WaitReady [11; 1000; 12]).
Proof.
  split; [reflexivity|].
  apply (ReceiveAndDispatch_status sample_this 5 (WaitReady [11; 1000; 12])
           sample_idle).
  reflexivity.
Defined.

Lemma ReceiveAndDispatch_full_batch_witness :
  canceled_ sample_idle = false
  ∧ [12; 11; 12] ≠ []
  ∧ (sample_this ∉ [12; 11; 12])
  ∧ (ReceiveAndDispatch sample_this 5 (WaitReady [12; 11; 12]) sample_idle).1
    = 0
  ∧ history (ReceiveAndDispatch sample_this 5 (WaitReady [12; 11; 12])
               sample_idle).2
    = history sample_idle ++ [EvEnter; EvWait 5]
      ++ map EvDispatch [12; 11; 12] ++ [EvExit].
Proof.
  assert (sample_this ∉ [12; 11; 12]) as Hnot.
  { rewrite !elem_of_cons, elem_of_nil. unfold sample_this. lia. }
  split; [reflexivity|]. split; [discriminate|]. split; [exact Hnot|].
  apply (ReceiveAndDispatch_full_batch sample_this 5 [12; 11; 12] sample_idle);
    [reflexivity|discriminate|exact Hnot].
Defined.

Lemma EnterDispatchLoop_balanced_witness :
  canceled_ sample_idle = false
  ∧ calls_nothing sample_loop_steps = true
  ∧ run_among sample_this sample_kIpcTag sample_ipc_tag sample_epoll_fd
      ((LCall CEnterDispatchLoop, sample_idle) :: sample_loop_steps) Idle
    = Some (Returned FEnterDispatchLoop 0, 0,
            [EvEnter; EvWait (-1); EvDispatch 11; EvExit])
  ∧ 0 ≤ 0
  ∧ occurrences EvEnter [EvEnter; EvWait (-1); EvDispatch 11; EvExit] = 1%nat
  ∧ occurrences EvExit [EvEnter; EvWait (-1); EvDispatch 11; EvExit] = 1%nat
  ∧ head [EvEnter; EvWait (-1); EvDispatch 11; EvExit] = Some EvEnter
  ∧ last [EvEnter; EvWait (-1); EvDispatch 11; EvExit] = Some EvExit
  ∧ (0 = 0 → ∃ s, (LStep, s) ∈ sample_loop_steps ∧ canceled_ s = true).
Proof.
  split; [reflexivity|]. split; [reflexivity|]. split; [reflexivity|].
  destruct (EnterDispatchLoop_balanced sample_this sample_kIpcTag
              sample_ipc_tag sample_epoll_fd Idle sample_idle
              sample_loop_steps FEnterDispatchLoop 0 0
              [EvEnter; EvWait (-1); EvDispatch 11; EvExit]
              eq_refl eq_refl eq_refl)
    as (_ & Hret & _ & Henter & Hexit & Hhead & Hlast & Hseen).
  exact (conj Hret (conj Henter (conj Hexit (conj Hhead (conj Hlast Hseen))))).
Defined.

Lemma dispatch_loop_returns_iff_witness :
  canceled_ sample_busy = false
  ∧ (is_Some (dispatch_loop sample_this
                [WaitFail EINTR; WaitReady [11]; WaitFail EINVAL] sample_busy)
     ↔ existsb (ends_loop sample_this)
         [WaitFail EINTR; WaitReady [11]; WaitFail EINVAL] = true).
Proof.
  split; [reflexivity|].
  apply (dispatch_loop_returns_iff sample_this
           [WaitFail EINTR; WaitReady [11]; WaitFail EINVAL] sample_busy).
  reflexivity.
Defined.

Lemma wrong_kind_rejected_witness :
  sample_ipc_tag 13 ≠ sample_kIpcTag
  ∧ AddService sample_kIpcTag sample_ipc_tag sample_epoll_fd None 13
      sample_busy
    = (-22, sample_busy)
  ∧ RemoveService sample_kIpcTag sample_ipc_tag sample_epoll_fd None 13
      sample_busy
    = (-22, sample_busy).
Proof.
  split; [discriminate|].
  apply (wrong_kind_rejected sample_kIpcTag sample_ipc_tag sample_epoll_fd
           None 13 sample_busy).
  discriminate.
Defined.

Lemma registration_is_exclusive_witness :
  AddService sample_kIpcTag sample_ipc_tag sample_epoll_fd None 14 sample_idle
  = (0, sample_idle_14)
  ∧ AddService sample_kIpcTag sample_ipc_tag sample_epoll_fd None 14
      sample_idle_14
    = (-17, sample_idle_14)
  ∧ RemoveService sample_kIpcTag sample_ipc_tag sample_epoll_fd None 11
      sample_idle
    = (0, sample_idle_no_11)
  ∧ RemoveService sample_kIpcTag sample_ipc_tag sample_epoll_fd None 11
      sample_idle_no_11
    = (-2, sample_idle_no_11).
Proof.
  split; [reflexivity|].
  split.
  { apply (proj1 (registration_is_exclusive sample_kIpcTag sample_ipc_tag
                    sample_epoll_fd None 14 sample_idle sample_idle_14)).
    reflexivity. }
  split; [reflexivity|].
  apply (proj2 (registration_is_exclusive sample_kIpcTag sample_ipc_tag
                  sample_epoll_fd None 11 sample_idle sample_idle_no_11)).
  reflexivity.
Defined.

Lemma add_then_remove_restores_witness :
  (14 ∉ services_ sample_idle)
  ∧ thread_count_ sample_idle ≤ 0
  ∧ AddService sample_kIpcTag sample_ipc_tag sample_epoll_fd None 14
      sample_idle
    = (0, sample_idle_14)
  ∧ RemoveService sample_kIpcTag sample_ipc_tag sample_epoll_fd None 14
      sample_idle_14
    = (0, sample_idle).
Proof.
  assert (14 ∉ services_ sample_idle) as Hnot.
  { cbn. rewrite !elem_of_cons, elem_of_nil. lia. }
  split; [exact Hnot|]. split; [reflexivity|]. split; [reflexivity|].
  apply (add_then_remove_restores sample_kIpcTag sample_ipc_tag
           sample_epoll_fd 14 sample_idle sample_idle_14);
    [exact Hnot|reflexivity|reflexivity].
Defined.

Lemma registry_stays_in_sync_witness :
  reachable sample_this sample_kIpcTag sample_ipc_tag sample_even_fd
    sample_serving
  ∧ in_sync sample_even_fd (obj sample_serving)
  ∧ NoDup (services_ (obj sample_serving)).
Proof.
  split; [exact sample_serving_reachable|].
  apply (registry_stays_in_sync sample_this sample_kIpcTag sample_ipc_tag
           sample_even_fd sample_serving).
  - intros p q. unfold sample_even_fd. lia.
  - intros q. unfold sample_even_fd. cbn. lia.
  - exact sample_serving_reachable.
Defined.

Lemma control_signal_stays_registered_witness :
  reachable sample_this sample_kIpcTag sample_ipc_tag sample_even_fd
    sample_serving
  ∧ handle_valid (event_fd_ (obj sample_serving)) = true
  ∧ handle_valid (epoll_fd_ (obj sample_serving)) = true
  ∧ interest (obj sample_serving) !! event_fd_ (obj sample_serving)
    = Some sample_this.
Proof.
  split; [exact sample_serving_reachable|].
  apply (control_signal_stays_registered sample_this sample_kIpcTag
           sample_ipc_tag sample_even_fd sample_serving).
  - intros q. unfold sample_even_fd. cbn. lia.
  - exact sample_serving_reachable.
Defined.

Lemma dispatched_service_is_registered_witness :
  reachable sample_this sample_kIpcTag sample_ipc_tag sample_even_fd
    sample_serving
  ∧ step sample_this sample_kIpcTag sample_ipc_tag sample_even_fd 1 LStep
      sample_serving
    = Some sample_served
  ∧ history (obj sample_served)
    = history (obj sample_serving) ++ [EvDispatch 11]
  ∧ 11 ≠ sample_this
  ∧ 11 ∈ services_ (obj sample_serving)
  ∧ 11 ∈ services_ (obj sample_served).
Proof.
  split; [exact sample_serving_reachable|].
  split; [reflexivity|]. split; [reflexivity|].
  apply (dispatched_service_is_registered sample_this sample_kIpcTag
           sample_ipc_tag sample_even_fd sample_serving 1 LStep sample_served
           11).
  - intros p q. unfold sample_even_fd. lia.
  - intros q. unfold sample_even_fd. cbn. lia.
  - exact sample_serving_reachable.
  - reflexivity.
  - reflexivity.
Defined.


Lemma idle_dispatcher_wait_witness :
  reachable sample_this sample_kIpcTag sample_ipc_tag sample_even_fd
    sample_waiting
  ∧ services_ (obj sample_waiting) = []
  ∧ quiet (threads sample_waiting) = true
  ∧ epoll_wait 0 (KReady []) (obj sample_waiting) = Some (WaitReady [])
  ∧ (canceled_ (obj sample_waiting) = false →
     (ReceiveAndDispatch sample_this 0 (WaitReady []) (obj sample_waiting)).1
     = -110).
Proof.
  split; [exact sample_waiting_reachable_even|].
  split; [reflexivity|]. split; [reflexivity|]. split; [reflexivity|].
  apply (idle_dispatcher_wait sample_this sample_kIpcTag sample_ipc_tag
           sample_even_fd sample_waiting 0 (KReady []) (WaitReady [])).
  - intros p q. unfold sample_even_fd. lia.
  - intros q. unfold sample_even_fd. cbn. lia.
  - exact sample_waiting_reachable_even.
  - reflexivity.
  - reflexivity.
  - reflexivity.
Defined.

Lemma no_entry_while_canceled_witness :
  canceled_ (obj sample_cancelling) = true
  ∧ calls_no_SetCanceled cancel_completes = true
  ∧ run sample_this sample_kIpcTag sample_ipc_tag sample_even_fd
      cancel_completes sample_cancelling
    = Some sample_canceled
  ∧ canceled_ (obj sample_canceled) = true
  ∧ thread_count_ (obj sample_canceled)
    ≤ thread_count_ (obj sample_cancelling).
Proof.
  split; [reflexivity|]. split; [reflexivity|]. split; [reflexivity|].
  apply (no_entry_while_canceled sample_this sample_kIpcTag sample_ipc_tag
           sample_even_fd cancel_completes sample_cancelling sample_canceled);
    reflexivity.
Defined.

Lemma signal_bounded_witness :
  reachable sample_this sample_kIpcTag sample_ipc_tag sample_even_fd
    sample_cancelling
  ∧ 0 ≤ event_counter (obj sample_cancelling)
      ≤ count_cancelling (threads sample_cancelling)
  ∧ (quiet (threads sample_cancelling) = true →
     event_counter (obj sample_cancelling) = 0).
Proof.
  split; [exact sample_cancelling_reachable|].
  apply (signal_bounded sample_this sample_kIpcTag sample_ipc_tag
           sample_even_fd sample_cancelling).
  exact sample_cancelling_reachable.
Defined.

Lemma canceller_left_asleep_witness :
  reachable sample_this sample_kIpcTag sample_ipc_tag sample_even_fd
    sample_stranded
  ∧ threads sample_stranded !! 2%nat = Some SC_blocked
  ∧ canceled_ (obj sample_stranded) = true
  ∧ thread_count_ (obj sample_stranded) = 0
  ∧ calls_no_SetCanceled stranded_calls = true
  ∧ no_spurious_wake 2 stranded_calls = true
  ∧ run sample_this sample_kIpcTag sample_ipc_tag sample_even_fd
      stranded_calls sample_stranded
    = Some sample_still_stranded
  ∧ threads sample_still_stranded !! 2%nat = Some SC_blocked
  ∧ wait_pred (obj sample_still_stranded) = true.
Proof.
  split; [exact sample_stranded_reachable|].
  do 6 (split; [reflexivity|]).
  apply (canceller_left_asleep sample_this sample_kIpcTag sample_ipc_tag
           sample_even_fd sample_stranded 2 stranded_calls
           sample_still_stranded);
    [exact sample_stranded_reachable|reflexivity..].
Defined.

Lemma cancellation_signals_waiters_witness :
  reachable sample_this sample_kIpcTag sample_ipc_tag sample_even_fd
    sample_waiting
  ∧ quiet (threads sample_waiting) = true
  ∧ run sample_this sample_kIpcTag sample_ipc_tag sample_even_fd
      [(1%nat, LCall (CSetCanceled true)); (0%nat, LWait (KFail EINTR))]
      sample_waiting
    = Some sample_interrupted
  ∧ threads sample_interrupted !! 1%nat = Some SC_blocked
  ∧ event_counter (obj sample_interrupted) = 1
  ∧ epoll_wait 5 (KReady [event_fd_ (obj sample_interrupted)])
      (obj sample_interrupted)
    = Some (WaitReady [sample_this])
  ∧ run_thread sample_this sample_kIpcTag sample_ipc_tag sample_even_fd
      [LWait (KReady [event_fd_ (obj sample_interrupted)]); LStep; LExit None]
      Loop_wait (obj sample_interrupted)
    = Some (Returned FEnterDispatchLoop (-16),
            ThreadExit (record (EvWait (-1)) (obj sample_interrupted)))
  ∧ run_thread sample_this sample_kIpcTag sample_ipc_tag sample_even_fd
      [LWait (KReady [event_fd_ (obj sample_interrupted)]); LStep; LExit None]
      (RD_wait 5) (obj sample_interrupted)
    = Some (Returned FReceiveAndDispatch (-16),
            ThreadExit (record (EvWait 5) (obj sample_interrupted))).
Proof.
  split; [exact sample_waiting_reachable_even|].
  split; [reflexivity|]. split; [reflexivity|]. split; [reflexivity|].
  apply (cancellation_signals_waiters sample_this sample_kIpcTag
           sample_ipc_tag sample_even_fd sample_waiting 1
           [(0%nat, LWait (KFail EINTR))] sample_interrupted 5).
  - exact sample_waiting_reachable_even.
  - reflexivity.
  - intros q. unfold sample_even_fd. cbn. lia.
  - reflexivity.
  - reflexivity.
  - exists SC_blocked. split; reflexivity.
Defined.

Lemma producer_images_created_then_destroyed_witness :
  9 ≠ NativeBuffer.nullptr
  ∧ NativeBuffer.egl_calls
      (NativeBuffer.dtor 0
         (NativeBuffer.ctor sample_slice_count sample_eglCreateImageKHR
            500 9 2))
    = [NativeBuffer.EglCreateImage 9 0; NativeBuffer.EglCreateImage 9 1;
       NativeBuffer.EglCreateImage 9 2; NativeBuffer.EglDestroyImage 9 70;
       NativeBuffer.EglDestroyImage 9 72].
Proof.
  split; [discriminate|].
  apply (producer_images_created_then_destroyed 0 sample_slice_count
           sample_eglCreateImageKHR 500 9 2).
  discriminate.
Defined.
